(** * htmplate: the pre-processor and the template compiler of [compiler.js]

    A shallow embedding of [src/compiler.js].  JavaScript strings are lists
    of characters, arrays are lists, the [props] object of a line is an
    insertion-ordered association list with JavaScript's enumeration order,
    and every loop of the source is a recursive function with the same
    tests.  The one loop of the source that may run forever (the tab loop of
    [_replaceSpacesWithTabs] when the divisor is zero) returns [None]. *)

From Equations Require Import Equations.
From Equations.Prop Require Import Logic.
From Stdlib Require Import Ascii String List Arith ZArith Lia Bool Permutation.
Import ListNotations.

Set Default Goal Selector "!".

(** ** JavaScript strings *)

Module JsString.

Definition str := list ascii.

(** A literal of the source. *)
Definition lit (s : string) : str := list_ascii_of_string s.

Definition NL : ascii := "010"%char.
Definition TAB : ascii := "009"%char.
Definition SPACE : ascii := " "%char.
Definition QUOTE : ascii := "034"%char.

(** [s[i]]: [None] stands for [undefined], which equals no character. *)
Definition charAt (s : str) (i : nat) : option ascii := nth_error s i.

Definition charIs (c : ascii) (o : option ascii) : bool :=
  match o with
  | Some d => Ascii.eqb d c
  | None => false
  end.

(** [s.substring(a, b)]: both ends are clamped to the length and swapped
    when [a > b]. *)
Definition substring (s : str) (a b : nat) : str :=
  let lo := Nat.min a b in
  let hi := Nat.max a b in
  firstn (hi - lo) (skipn lo s).

(** [s.substring(a)] *)
Definition substringFrom (s : str) (a : nat) : str := skipn a s.

(** The code units below 256 that [String.prototype.trim] removes: TAB, LF,
    VT, FF, CR, SPACE and NBSP. *)
Definition isWhiteSpace (c : ascii) : bool :=
  let n := nat_of_ascii c in
  ((9 <=? n) && (n <=? 13)) || (n =? 32) || (n =? 160).

Fixpoint dropWhile (p : ascii -> bool) (s : str) : str :=
  match s with
  | [] => []
  | c :: r => if p c then dropWhile p r else s
  end.

Fixpoint takeWhile (p : ascii -> bool) (s : str) : str :=
  match s with
  | [] => []
  | c :: r => if p c then c :: takeWhile p r else []
  end.

Definition trim (s : str) : str :=
  rev (dropWhile isWhiteSpace (rev (dropWhile isWhiteSpace s))).

(** [s.split('\n')]: never empty, the empty string splits into one empty line. *)
Fixpoint split (s : str) : list str :=
  match s with
  | [] => [[]]
  | c :: r =>
      if Ascii.eqb c NL then [] :: split r
      else match split r with
           | [] => [[c]]
           | l :: ls => (c :: l) :: ls
           end
  end.

(** [a.join(sep)]: the empty array joins to the empty string. *)
Fixpoint join (sep : str) (a : list str) : str :=
  match a with
  | [] => []
  | l :: rest =>
      match rest with
      | [] => l
      | _ :: _ => l ++ sep ++ join sep rest
      end
  end.

Fixpoint streq (a b : str) : bool :=
  match a, b with
  | [], [] => true
  | c :: a', d :: b' => Ascii.eqb c d && streq a' b'
  | _, _ => false
  end.

(** The index of the first character satisfying [p], scanning from [i]. *)
Fixpoint findFrom (p : ascii -> bool) (s : str) (i : nat) : option nat :=
  match s with
  | [] => None
  | c :: r => if p c then Some i else findFrom p r (S i)
  end.

Definition tabs (n : nat) : str := repeat TAB n.

End JsString.

Import JsString.

(** ** The pre-processor *)

Module PreProcessor.

Inductive indentation := INDENTED_WITH_SPACES | INDENTED_WITH_TABS.

(** [new PreProcessor(content)] *)
Definition new (content : str) : list str := split content.

(** The loop removes index [i] and looks at the same index again, so it
    keeps exactly the lines whose trimmed text is not empty. *)
Definition _removeEmptyLines (lines : list str) : list str :=
  filter (fun l => negb (length (trim l) =? 0)) lines.

Fixpoint _getIndentationType (lines : list str) : indentation :=
  match lines with
  | [] => INDENTED_WITH_TABS
  | l :: rest =>
      if charIs SPACE (charAt l 0) then INDENTED_WITH_SPACES
      else if charIs TAB (charAt l 0) then INDENTED_WITH_TABS
      else _getIndentationType rest
  end.

(** The inner loop of [_getSpacesPerTab]: [Some n] is the [return], [None]
    is the loop running off the end of the line. *)
Fixpoint countSpaces (l : str) (spacesPerTab : nat) : option nat :=
  match l with
  | [] => None
  | c :: r =>
      if Ascii.eqb c SPACE then countSpaces r (S spacesPerTab)
      else Some spacesPerTab
  end.

Fixpoint _getSpacesPerTab (lines : list str) : nat :=
  match lines with
  | [] => 0
  | l :: rest =>
      if charIs SPACE (charAt l 0) then
        match countSpaces l 0 with
        | Some n => n
        | None => _getSpacesPerTab rest
        end
      else _getSpacesPerTab rest
  end.

(** [spacesEndAt]: the index of the first character that is not a space;
    [None] is the source's [-1]. *)
Definition spacesEndAt (l : str) : option nat :=
  findFrom (fun c => negb (Ascii.eqb c SPACE)) l 0.

(** [for (j = 0; j < numTabs; j++) tabs += '\t'] with
    [numTabs = spacesEndAt / spacesPerTab], a division of JavaScript
    numbers.  For the lengths a string can have the quotient of two
    integers is compared exactly, so [j < spacesEndAt / spacesPerTab] is
    [j * spacesPerTab < spacesEndAt]; with a zero divisor the quotient is
    [Infinity] (the test never fails and the loop does not end, modelled
    by [None]) or, for [0 / 0], [NaN] (the test fails at once). *)
Fixpoint tabsLoop (fuel j a b : nat) (acc : str) : option str :=
  if j * b <? a then
    match fuel with
    | 0 => None
    | S fuel' => tabsLoop fuel' (S j) a b (acc ++ [TAB])
    end
  else Some acc.

Definition replaceLine (spacesPerTab : nat) (l : str) : option str :=
  match spacesEndAt l with
  | None => Some l
  | Some e =>
      match tabsLoop e 0 e spacesPerTab [] with
      | None => None
      | Some t => Some (t ++ substringFrom l e)
      end
  end.

Fixpoint _replaceSpacesWithTabs (spacesPerTab : nat) (lines : list str)
  : option (list str) :=
  match lines with
  | [] => Some []
  | l :: rest =>
      match replaceLine spacesPerTab l with
      | None => None
      | Some l' =>
          match _replaceSpacesWithTabs spacesPerTab rest with
          | None => None
          | Some rest' => Some (l' :: rest')
          end
      end
  end.

Definition processLines (lines0 : list str) : option (list str) :=
  let lines := _removeEmptyLines lines0 in
  match _getIndentationType lines with
  | INDENTED_WITH_SPACES =>
      _replaceSpacesWithTabs (_getSpacesPerTab lines) lines
  | INDENTED_WITH_TABS => Some lines
  end.

(** [new PreProcessor(content).process()] *)
Definition process (content : str) : option str :=
  option_map (join [NL]) (processLines (new content)).

End PreProcessor.

(** ** JavaScript numbers: the coercion behind [tag == 1] *)

Module JsNumber.

Definition isDigit (c : ascii) : bool :=
  let n := nat_of_ascii c in (48 <=? n) && (n <=? 57).

(** The value of a digit of a literal in base up to 16, if it is one. *)
Definition digitValue (c : ascii) : option N :=
  let n := nat_of_ascii c in
  if (48 <=? n) && (n <=? 57) then Some (N.of_nat (n - 48))
  else if (97 <=? n) && (n <=? 102) then Some (N.of_nat (n - 87))
  else if (65 <=? n) && (n <=? 70) then Some (N.of_nat (n - 55))
  else None.

(** The value of a non-empty run of digits of the given base. *)
Fixpoint digitsFrom (base : N) (s : str) (acc : N) : option N :=
  match s with
  | [] => Some acc
  | c :: r =>
      match digitValue c with
      | Some d => if (d <? base)%N then digitsFrom base r (acc * base + d)%N
                  else None
      | None => None
      end
  end.

Definition digits (base : N) (s : str) : option N :=
  match s with
  | [] => None
  | _ :: _ => digitsFrom base s 0%N
  end.

(** [ExponentPart]: nothing, or [e]/[E], an optional sign and digits. *)
Definition exponent (s : str) : option Z :=
  match s with
  | [] => Some 0%Z
  | c :: r =>
      if Ascii.eqb c "e" || Ascii.eqb c "E" then
        match r with
        | "+"%char :: r' => option_map Z.of_N (digits 10 r')
        | "-"%char :: r' => option_map (fun n => (- Z.of_N n)%Z) (digits 10 r')
        | _ => option_map Z.of_N (digits 10 r)
        end
      else None
  end.

(** Does the real number [m * 10 ^ e] round to the double [1]?  The
    doubles next to [1] are [1 - 2^-53] and [1 + 2^-52], and ties go to
    the even significand, which is that of [1]. *)
Definition roundsToOne (m : N) (e : Z) : bool :=
  let m := Z.of_N m in
  if (0 <=? e)%Z then (m * 10 ^ e =? 1)%Z
  else
    let d := (10 ^ (- e))%Z in
    (((2 ^ 54 - 1) * d <=? m * 2 ^ 54) && (m * 2 ^ 53 <=? (2 ^ 53 + 1) * d))%Z.

(** [StrUnsignedDecimalLiteral] other than [Infinity]: digits, an optional
    fraction and an optional exponent, with a digit on one side of the
    point at least. *)
Definition decimalIsOne (s : str) : bool :=
  let ip := takeWhile isDigit s in
  let r1 := dropWhile isDigit s in
  let '(fp, r2) :=
    match r1 with
    | "."%char :: r => (takeWhile isDigit r, dropWhile isDigit r)
    | _ => ([], r1)
    end in
  match digits 10 (ip ++ fp), exponent r2 with
  | Some m, Some e => roundsToOne m (e - Z.of_nat (length fp))
  | _, _ => false
  end.

(** [StringToNumber(s) == 1]: white space is trimmed; a literal is a
    decimal with an optional sign, or an unsigned [0x], [0o] or [0b]
    integer; anything else is [NaN], and the empty string is [0]. *)
Definition stringIsOne (s : str) : bool :=
  match trim s with
  | "0"%char :: x :: r =>
      if Ascii.eqb x "x" || Ascii.eqb x "X" then
        match digits 16 r with Some v => (v =? 1)%N | None => false end
      else if Ascii.eqb x "o" || Ascii.eqb x "O" then
        match digits 8 r with Some v => (v =? 1)%N | None => false end
      else if Ascii.eqb x "b" || Ascii.eqb x "B" then
        match digits 2 r with Some v => (v =? 1)%N | None => false end
      else decimalIsOne ("0"%char :: x :: r)
  | "+"%char :: r => decimalIsOne r
  | t => decimalIsOne t
  end.

End JsNumber.

(** ** JavaScript objects with string values *)

Module JsObject.

(** The own properties in insertion order; keys are unique. *)
Definition obj := list (str * str).

Definition empty : obj := [].

(** An array index is the canonical decimal form of an integer below
    [2^32 - 1]; such keys are enumerated first, in ascending order. *)
Definition arrayIndex (k : str) : option N :=
  match k with
  | [] => None
  | c :: r =>
      if Ascii.eqb c "0" && negb (length r =? 0) then None
      else match JsNumber.digits 10 k with
           | Some v => if (v <? 4294967295)%N then Some v else None
           | None => None
           end
  end.

Fixpoint get (o : obj) (k : str) : option str :=
  match o with
  | [] => None
  | (k', v) :: r => if streq k' k then Some v else get r k
  end.

Fixpoint put (o : obj) (k v : str) : obj :=
  match o with
  | [] => [(k, v)]
  | (k', v') :: r => if streq k' k then (k', v) :: r else (k', v') :: put r k v
  end.

(** [o[k] = v] for a string [v]: the key [__proto__] reaches the setter
    of [Object.prototype], which ignores a value that is not an object. *)
Definition set (o : obj) (k v : str) : obj :=
  if streq k (lit "__proto__") then o else put o k v.

Fixpoint insertIndex (n : N) (e : str * str) (l : list (N * (str * str)))
  : list (N * (str * str)) :=
  match l with
  | [] => [(n, e)]
  | (m, e') :: r =>
      if (n <? m)%N then (n, e) :: l else (m, e') :: insertIndex n e r
  end.

Fixpoint indexEntries (o : obj) : list (N * (str * str)) :=
  match o with
  | [] => []
  | (k, v) :: r =>
      match arrayIndex k with
      | Some n => insertIndex n (k, v) (indexEntries r)
      | None => indexEntries r
      end
  end.

Definition namedEntries (o : obj) : list (str * str) :=
  filter (fun e => match arrayIndex (fst e) with
                   | Some _ => false
                   | None => true
                   end) o.

(** [for (var key in o)] with [o[key]]: array indices in ascending order,
    then the other keys in insertion order. *)
Definition entries (o : obj) : list (str * str) :=
  map snd (indexEntries o) ++ namedEntries o.

End JsObject.

(** ** The compiler *)

Module Compiler.

Import JsObject.

(** The values [line.tag] takes: [null] from the constructor, the number
    [Compiler.Line.NO_TAG = 1], or the string [_parseTag] cut out. *)
Inductive tagValue :=
| TagNull
| NO_TAG
| Tag (name : str).

Record Line := mkLine {
  line : str;
  level : nat;
  tag : tagValue;
  props : obj
}.

(** [new Compiler.Line(line, level)] *)
Definition newLine (l : str) (lv : nat) : Line :=
  {| line := l; level := lv; tag := TagNull; props := empty |}.

(** [line.tag == Compiler.Line.NO_TAG], the loose equality with the number
    [1]: a string is converted to a number first. *)
Definition isNoTag (t : tagValue) : bool :=
  match t with
  | TagNull => false
  | NO_TAG => true
  | Tag s => JsNumber.stringIsOne s
  end.

(** The text that ['<' + line.tag] concatenates when the tag is not [1]. *)
Definition tagText (t : tagValue) : str :=
  match t with
  | TagNull => lit "null"
  | NO_TAG => lit "1"
  | Tag s => s
  end.

(** *** Emission *)

(** One attribute of an opening tag: a space, the key, [=] and the value
    between double quotes. *)
Definition attribute (e : str * str) : str :=
  lit " " ++ fst e ++ lit "=" ++ [QUOTE] ++ snd e ++ [QUOTE].

Definition _getOpeningTag (l : Line) : str :=
  if isNoTag (tag l) then tabs (level l) ++ line l ++ [NL]
  else
    (fold_left (fun t e => t ++ attribute e) (entries (props l))
       (tabs (level l) ++ lit "<" ++ tagText (tag l)) ++ lit ">") ++ [NL].

Definition _getClosingTag (l : Line) : str :=
  if isNoTag (tag l) then []
  else tabs (level l) ++ lit "</" ++ tagText (tag l) ++ lit ">" ++ [NL].

(** The [while] loops of [compile]: the stack's top is the head of the
    list.  [closeWhile] pops while the top is at least as deep as [lv]. *)
Fixpoint closeWhile (lineStack : list Line) (lv : nat) (compiled : str)
  : list Line * str :=
  match lineStack with
  | [] => ([], compiled)
  | top :: below =>
      if lv <=? level top
      then closeWhile below lv (compiled ++ _getClosingTag top)
      else (lineStack, compiled)
  end.

Fixpoint closeAll (lineStack : list Line) (compiled : str) : str :=
  match lineStack with
  | [] => compiled
  | top :: below => closeAll below (compiled ++ _getClosingTag top)
  end.

Fixpoint compileLoop (lines lineStack : list Line) (compiled : str) : str :=
  match lines with
  | [] => closeAll lineStack compiled
  | l :: rest =>
      let '(lineStack', compiled') := closeWhile lineStack (level l) compiled in
      compileLoop rest (l :: lineStack') (compiled' ++ _getOpeningTag l)
  end.

Definition compile (lines : list Line) : str := compileLoop lines [] [].

(** *** Line objects *)

Definition lineObject (l : str) : Line :=
  let numTabs := length (takeWhile (fun c => Ascii.eqb c TAB) l) in
  newLine (trim (substringFrom l numTabs)) numTabs.

Definition _getLineObjects (content : str) : list Line :=
  map lineObject (split content).

(** *** Inline statements *)

(** The scan of one line: the index of the first [:] outside parentheses,
    where [(] opens and [)] closes them without counting. *)
Fixpoint colonAt (s : str) (j : nat) (inParens : bool) : option nat :=
  match s with
  | [] => None
  | c :: r =>
      if Ascii.eqb c "(" then colonAt r (S j) true
      else if Ascii.eqb c ")" then colonAt r (S j) false
      else if negb inParens && Ascii.eqb c ":" then Some j
      else colonAt r (S j) inParens
  end.

(** What the body of the outer loop does to line [i]: [Some (parent,
    child)] when it truncates the line and splices a new line after it. *)
Definition splitLine (l : Line) : option (Line * Line) :=
  match colonAt (line l) 0 false with
  | None => None
  | Some j =>
      let nextLine := trim (substringFrom (line l) (j + 1)) in
      if length nextLine =? 0 then None
      else Some ({| line := substring (line l) 0 (j + 1); level := level l;
                    tag := tag l; props := props l |},
                 newLine nextLine (level l + 1))
  end.

(** The characters the outer loop still has to scan; every spliced line
    is shorter than the line it was cut from, so the loop ends. *)
Definition pending (lines : list Line) : nat :=
  list_sum (map (fun l => S (length (line l))) lines).

(** The outer loop over the growing array: a spliced line is the next one
    the loop visits. *)
Equations? _expandSingleLineStatements (lines : list Line) : list Line
  by wf (pending lines) lt :=
  _expandSingleLineStatements [] := [];
  _expandSingleLineStatements (l :: rest) with inspect (splitLine l) := {
    | exist _ (Some (parent, child)) _ =>
        parent :: _expandSingleLineStatements (child :: rest)
    | exist _ None _ => l :: _expandSingleLineStatements rest }.
Proof.
  - assert (Hdrop : forall p (s : str), length (dropWhile p s) <= length s).
    { intros p s. induction s as [|c r IH]; simpl; [lia|].
      destruct (p c); simpl; lia. }
    assert (Hcolon : forall (s : str) j b k,
               colonAt s j b = Some k -> k < j + length s).
    { induction s as [|c r IH]; simpl; intros j b k H; [discriminate|].
      destruct (Ascii.eqb c "("); [apply IH in H; lia|].
      destruct (Ascii.eqb c ")"); [apply IH in H; lia|].
      destruct (negb b && Ascii.eqb c ":"); [|apply IH in H; lia].
      injection H as <-. lia. }
    unfold splitLine in e.
    destruct (colonAt (line l) 0 false) as [j|] eqn:Hj; [|discriminate].
    destruct (length (trim (substringFrom (line l) (j + 1))) =? 0);
      [discriminate|].
    injection e as _ <-. apply Hcolon in Hj.
    unfold pending, trim, substringFrom; simpl. rewrite length_rev.
    pose proof (Hdrop isWhiteSpace
                  (rev (dropWhile isWhiteSpace (skipn (j + 1) (line l))))) as H1.
    pose proof (Hdrop isWhiteSpace (skipn (j + 1) (line l))) as H2.
    rewrite length_rev in H1. rewrite length_skipn in H2. lia.
  - unfold pending; simpl. lia.
Qed.

(** *** Parsing a line *)

Definition isTagEnd (c : ascii) : bool :=
  Ascii.eqb c "#" || Ascii.eqb c "." || Ascii.eqb c "(" || Ascii.eqb c ":".

Definition isIdEnd (c : ascii) : bool :=
  Ascii.eqb c "." || Ascii.eqb c "(" || Ascii.eqb c ":".

Definition isClassEnd (c : ascii) : bool :=
  Ascii.eqb c "." || Ascii.eqb c "(" || Ascii.eqb c ":" || Ascii.eqb c "#".

Definition _parseTag (l : str) : tagValue :=
  match findFrom isTagEnd l 0 with
  | Some i => Tag (substring l 0 i)
  | None => NO_TAG
  end.

(** The outer loop of [_parseId] at index [i], [s] being the line from
    [i] on; [None] is [undefined].  A [#] whose inner loop finds no end
    leaves the outer loop running. *)
Fixpoint parseIdFrom (l s : str) (i : nat) : option str :=
  match s with
  | [] => None
  | c :: r =>
      if Ascii.eqb c "#" then
        match findFrom isIdEnd r (i + 1) with
        | Some j => Some (substring l (i + 1) j)
        | None => parseIdFrom l r (S i)
        end
      else parseIdFrom l r (S i)
  end.

Definition _parseId (l : str) : option str := parseIdFrom l l 0.

(** The loop of [_parseClasses] at index [i]; a [.] whose inner loop
    finds no end pushes nothing. *)
Fixpoint classesFrom (l s : str) (i : nat) (inParens : bool)
  (classes : list str) : list str :=
  match s with
  | [] => classes
  | c :: r =>
      if Ascii.eqb c "(" then classesFrom l r (S i) true classes
      else if Ascii.eqb c ")" then classesFrom l r (S i) false classes
      else if negb inParens && Ascii.eqb c "." then
        match findFrom isClassEnd r (i + 1) with
        | Some j =>
            classesFrom l r (S i) inParens (classes ++ [substring l (i + 1) j])
        | None => classesFrom l r (S i) inParens classes
        end
      else classesFrom l r (S i) inParens classes
  end.

Definition _parseClasses (l : str) : option str :=
  let classes := classesFrom l l 0 false [] in
  if 0 <? length classes then Some (join (lit " ") classes) else None.

(** The first loop of [_parseProps]: [Some (parensStartAt, parensEndAt)]
    at the [break], [None] when [parensEndAt] stays [-1]. *)
Fixpoint parensFrom (s : str) (i : nat) (inParens : bool)
  (parensStartAt : nat) : option (nat * nat) :=
  match s with
  | [] => None
  | c :: r =>
      if negb inParens && Ascii.eqb c "(" then parensFrom r (S i) true i
      else if inParens && Ascii.eqb c ")" then Some (parensStartAt, i)
      else parensFrom r (S i) inParens parensStartAt
  end.

(** [while (s[i] == ' ') i++] *)
Definition skipSpaces (s : str) (i : nat) : nat :=
  i + length (takeWhile (fun c => Ascii.eqb c SPACE) (skipn i s)).

(** [while (i < s.length && s[i] != ' ') i++] *)
Definition skipWord (s : str) (i : nat) : nat :=
  i + length (takeWhile (fun c => negb (Ascii.eqb c SPACE)) (skipn i s)).

(** The second loop of [_parseProps] at index [i]; [propStartsAt] is
    [None] for [-1].  After a value the loop's own [i++] steps over one
    more character. *)
Equations? propsLoop (s : str) (i : nat) (propStartsAt : option nat)
  (props : obj) : obj by wf (length s - i) lt :=
  propsLoop s i propStartsAt props with lt_dec i (length s) := {
    | right _ => props
    | left _ with propStartsAt := {
        | None => propsLoop s (S i) (Some i) props
        | Some start with charIs ":" (charAt s i) := {
            | true =>
                let propName := substring s start i in
                let v := skipSpaces s (S i) in
                let e := skipWord s v in
                propsLoop s (S (skipSpaces s e)) None
                  (set props propName (substring s v e))
            | false => propsLoop s (S i) (Some start) props } } }.
Proof.
  all: try subst v e; unfold skipSpaces, skipWord; lia.
Qed.

Definition _parseProps (l : str) : obj :=
  match parensFrom l 0 false 0 with
  | None => empty
  | Some (parensStartAt, parensEndAt) =>
      let parenContents := trim (substring l (parensStartAt + 1) parensEndAt) in
      propsLoop parenContents 0 None empty
  end.

(** [if (id)] and [if (classes)]: [undefined] and the empty string are falsy. *)
Definition truthy (o : option str) : bool :=
  match o with
  | Some (_ :: _) => true
  | _ => false
  end.

Definition setIf (cond : bool) (o : obj) (k : str) (v : option str) : obj :=
  match v with
  | Some x => if cond then set o k x else o
  | None => o
  end.

(** The body of the loop of [_parseLines]. *)
Definition parseLine (l : Line) : Line :=
  let id := _parseId (line l) in
  let classes := _parseClasses (line l) in
  let p0 := setIf (truthy id) (props l) (lit "id") id in
  let p1 := setIf (truthy classes) p0 (lit "class") classes in
  {| line := line l; level := level l;
     tag := _parseTag (line l);
     props := fold_left (fun o e => set o (fst e) (snd e))
                (entries (_parseProps (line l))) p1 |}.

Definition _parseLines (lines : list Line) : list Line := map parseLine lines.

(** [new Compiler(content)]: the value of [this.lines] afterwards. *)
Definition new (content : str) : list Line :=
  _parseLines (_expandSingleLineStatements (_getLineObjects content)).

End Compiler.

(** [new Compiler(content).compile()] *)
Definition compileTemplate (content : str) : str :=
  Compiler.compile (Compiler.new content).

(** The script at the end of the source without its file access: the
    pre-processor, then the compiler on its result. *)
Definition run (content : str) : option str :=
  option_map compileTemplate (PreProcessor.process content).

(** * Vocabulary of the properties *)

(** ** Texts *)

Definition quoted (s : str) : str := QUOTE :: s ++ [QUOTE].

(** Is [p] a prefix of [s], and does [p] occur in [s]? *)
Fixpoint startsWith (p s : str) : bool :=
  match p, s with
  | [], _ => true
  | c :: p', d :: s' => Ascii.eqb c d && startsWith p' s'
  | _ :: _, [] => false
  end.

Fixpoint contains (p s : str) : bool :=
  startsWith p s ||
  match s with
  | [] => false
  | _ :: s' => contains p s'
  end.





(** The text between the [<] and the [>] of an opening tag. *)
Definition tagBody (l : Compiler.Line) : str :=
  Compiler.tagText (Compiler.tag l)
  ++ concat (map Compiler.attribute (JsObject.entries (Compiler.props l))).

(** ** Lines and indentation *)

(** The line has a [(], and no [)] comes after the first one. *)
Fixpoint unterminated (s : str) : bool :=
  match s with
  | [] => false
  | c :: r =>
      if Ascii.eqb c "(" then negb (existsb (fun d => Ascii.eqb d ")") r)
      else unterminated r
  end.

Definition isSpace (c : ascii) : bool := Ascii.eqb c SPACE.

(** The length of the leading run of spaces of a line. *)
Definition leadingSpaces (l : str) : nat := length (takeWhile isSpace l).

(** The quotient rounded up, the number of passes of a loop
    [for (j = 0; j < a / b; j++)]. *)
Definition ceilDiv (a b : nat) : nat := (a + b - 1) / b.

(** What [_replaceSpacesWithTabs] makes of a line that is not blank. *)
Definition rewritten (w : nat) (l : str) : str :=
  tabs (ceilDiv (leadingSpaces l) w) ++ skipn (leadingSpaces l) l.

(** The rewriting as the specification words it: the quotient rounded
    down. *)
Definition rewrittenFloor (w : nat) (l : str) : str :=
  tabs (leadingSpaces l / w) ++ skipn (leadingSpaces l) l.

Definition blank (l : str) : bool := length (trim l) =? 0.

(** The lines of a canonical text: none is blank, none holds a line break,
    and the indentation is classified as tabs. *)
Definition canonical (lines : list str) : Prop :=
  Forall (fun l => blank l = false) lines /\
  Forall (fun l => ~ In NL l) lines /\
  PreProcessor._getIndentationType lines = PreProcessor.INDENTED_WITH_TABS.

(** ** Events of the emitter *)

(** What the emitter appends: the opening text of a line when it is pushed,
    its closing text when it is popped. *)
Inductive event :=
| Open (l : Compiler.Line)
| Close (l : Compiler.Line).

Definition render (e : event) : str :=
  match e with
  | Open l => Compiler._getOpeningTag l
  | Close l => Compiler._getClosingTag l
  end.

Fixpoint opened (evs : list event) : list Compiler.Line :=
  match evs with
  | [] => []
  | Open l :: r => l :: opened r
  | Close _ :: r => opened r
  end.

Fixpoint closed (evs : list event) : list Compiler.Line :=
  match evs with
  | [] => []
  | Open _ :: r => closed r
  | Close l :: r => l :: closed r
  end.

Definition text (evs : list event) : str := concat (map render evs).

(** Well nested events: every line is closed after the lines opened inside
    it, and before anything that follows it. *)
Inductive nested : list event -> Prop :=
| nested_nil : nested []
| nested_cons l inner rest :
    nested inner -> nested rest ->
    nested (Open l :: inner ++ Close l :: rest).

(** The events that close the lines of [stack], the top first, with well
    nested events in between. *)
Inductive closes : list Compiler.Line -> list event -> Prop :=
| closes_nil evs : nested evs -> closes [] evs
| closes_cons top below inner rest :
    nested inner -> closes below rest ->
    closes (top :: below) (inner ++ Close top :: rest).

(** The lines that are emitted with tags. *)
Definition tagged (l : Compiler.Line) : bool :=
  negb (Compiler.isNoTag (Compiler.tag l)).

Definition taggedCount (lines : list Compiler.Line) : nat :=
  list_sum (map (fun l => if tagged l then 1 else 0) lines).

(** ** Markup characters *)

(** A character that neither opens a tag nor marks a closing tag. *)
Definition plainChar (c : ascii) : bool :=
  negb (Ascii.eqb c "<") && negb (Ascii.eqb c "/").

Definition plain (s : str) : Prop := Forall (fun c => plainChar c = true) s.

Definition plainObject (o : JsObject.obj) : Prop :=
  Forall (fun e => plain (fst e) /\ plain (snd e)) o.

Definition plainLine (l : Compiler.Line) : Prop :=
  plain (Compiler.line l) /\
  plain (Compiler.tagText (Compiler.tag l)) /\
  plainObject (Compiler.props l).

(** An opening tag begins at a [<] that no [/] follows, a closing tag at a
    [<] followed by [/]. *)
Fixpoint openTags (s : str) : nat :=
  match s with
  | [] => 0
  | c :: r =>
      (if Ascii.eqb c "<" && negb (startsWith (lit "/") r) then 1 else 0)
      + openTags r
  end.

Fixpoint closeTags (s : str) : nat :=
  match s with
  | [] => 0
  | c :: r =>
      (if Ascii.eqb c "<" && startsWith (lit "/") r then 1 else 0)
      + closeTags r
  end.

(** ** The loop of [compile] and the blocks of lines *)

(** The [for] loop of [compile] without the [while] loop that follows it:
    the stack and the text it leaves. *)
Fixpoint forLoop (lines lineStack : list Compiler.Line) (compiled : str)
  : list Compiler.Line * str :=
  match lines with
  | [] => (lineStack, compiled)
  | l :: rest =>
      let '(lineStack', compiled') :=
        Compiler.closeWhile lineStack (Compiler.level l) compiled in
      forLoop rest (l :: lineStack') (compiled' ++ Compiler._getOpeningTag l)
  end.

(** The lines at the head of [lines] that are deeper than [lv], and the
    lines from the first one that is not. *)
Fixpoint inside (lv : nat) (lines : list Compiler.Line) : list Compiler.Line :=
  match lines with
  | [] => []
  | x :: r => if lv <? Compiler.level x then x :: inside lv r else []
  end.

Fixpoint after (lv : nat) (lines : list Compiler.Line) : list Compiler.Line :=
  match lines with
  | [] => []
  | x :: r => if lv <? Compiler.level x then after lv r else lines
  end.

(** The closing texts of a stack, the top first. *)
Definition closings (lineStack : list Compiler.Line) : str :=
  concat (map Compiler._getClosingTag lineStack).

(** The levels of a stack fall strictly from the top to the bottom. *)
Fixpoint descending (lineStack : list Compiler.Line) : Prop :=
  match lineStack with
  | [] => True
  | top :: below =>
      match below with
      | [] => True
      | next :: _ => Compiler.level next < Compiler.level top
      end /\ descending below
  end.

(** ** Written forms of a line *)

(** The classes [cs] as they are written behind a tag: each after a dot. *)
Definition dotted (cs : list str) : str :=
  concat (map (fun c => "."%char :: c) cs).

Definition isParen (c : ascii) : bool :=
  Ascii.eqb c "(" || Ascii.eqb c ")".

(** A character that may stand in a class name: none of those that end a
    class, and no parenthesis. *)
Definition isClassChar (c : ascii) : bool :=
  negb (Compiler.isClassEnd c) && negb (isParen c).

(** ** Written forms of named attributes *)

(** A name as the attribute loop reads one: a first character, which is not
    looked at, and no colon behind it. *)
Definition nameOk (k : str) : bool :=
  match k with
  | [] => false
  | _ :: k' => forallb (fun c => negb (Ascii.eqb c ":")) k'
  end.

(** A value as the loop reads one: not empty and without a space. *)
Definition valueOk (v : str) : bool :=
  match v with
  | [] => false
  | _ :: _ => forallb (fun c => negb (Ascii.eqb c SPACE)) v
  end.

(** An attribute that is not the first of its group: [n + 1] spaces, then
    its name, written as a character [c] that is not a space and the rest
    [k] of the name, then a colon and the value [v]. *)
Definition laterAttribute (a : nat * ascii * str * str) : str :=
  let '(n, c, k, v) := a in
  repeat SPACE (S n) ++ c :: k ++ ":"%char :: v.

Definition laterOk (a : nat * ascii * str * str) : bool :=
  let '(n, c, k, v) := a in
  negb (Ascii.eqb c SPACE) && nameOk k && valueOk v.

Definition laterEntry (a : nat * ascii * str * str) : str * str :=
  let '(n, c, k, v) := a in (k, v).

(** The text of a group: the first attribute, then the later ones. *)
Definition writtenAttributes (k1 v1 : str)
  (later : list (nat * ascii * str * str)) : str :=
  k1 ++ ":"%char :: v1 ++ concat (map laterAttribute later).

(** ** Indented documents *)

(** Does the line begin with neither a space nor a tab? *)
Definition unindented (l : str) : bool :=
  negb (charIs SPACE (charAt l 0)) && negb (charIs TAB (charAt l 0)).

(** A line of a document, given by its depth and its text: the text behind
    [depth] copies of the indent unit. *)
Definition indentWith (unit : str) (d : nat * str) : str :=
  concat (repeat unit (fst d)) ++ snd d.

(** A text that can stand behind an indent: it begins with a character
    that is no white space, and it holds no line break. *)
Definition bodyOk (b : str) : bool :=
  match b with
  | [] => false
  | c :: _ => negb (isWhiteSpace c)
  end && forallb (fun c => negb (Ascii.eqb c NL)) b.

(** The depth of the first indented line of a document, [0] when no line is
    indented. *)
Fixpoint unitDepth (doc : list (nat * str)) : nat :=
  match doc with
  | [] => 0
  | d :: r =>
      match fst d with
      | 0 => unitDepth r
      | S k => S k
      end
  end.

Definition isTab (c : ascii) : bool := Ascii.eqb c TAB.

(** What the compiler writes for a line of text without delimiters: its
    leading tabs, then the line trimmed. *)
Definition tidy (l : str) : str := takeWhile isTab l ++ trim l ++ [NL].

(** * Properties *)

(** ** The end-to-end example *)



(** ** Classes *)

(** C2: on the line [div.a.b.c] the code collects the classes [a] and [b]
    only: the scan for the end of the last class runs off the end of the
    line and pushes nothing, so the [class] entry is [a b]. *)
Theorem C2_last_class_not_collected :
  Compiler._parseClasses (lit "div.a.b.c") = Some (lit "a b") /\
  Compiler.new (lit "div.a.b.c")
  = [ Compiler.mkLine (lit "div.a.b.c") 0 (Compiler.Tag (lit "div"))
        [(lit "class", lit "a b")] ] /\
  compileTemplate (lit "div.a.b.c")
  = lit "<div class=" ++ quoted (lit "a b") ++ lit ">" ++ [NL]
    ++ lit "</div>" ++ [NL].
Proof. repeat split; vm_compute; reflexivity. Qed.

(** ** Inline statements *)

(** C3, as the specification states it, fails: the line split off
    [ul: li Hello] has none of the characters that end a tag, so it is an
    untagged line, and neither an opening nor a closing [li] tag is in the
    output. *)
Lemma C3_no_li_element :
  map Compiler.tag (Compiler.new (lit "ul: li Hello"))
  = [Compiler.Tag (lit "ul"); Compiler.NO_TAG] /\
  contains (lit "<li") (compileTemplate (lit "ul: li Hello")) = false /\
  contains (lit "</li") (compileTemplate (lit "ul: li Hello")) = false.
Proof. repeat split; vm_compute; reflexivity. Qed.

(** C3, amended: [ul: li Hello] at level 0 becomes the line [ul:] at level 0
    and the untagged line [li Hello] at level 1, and compiles to the opening
    [ul] tag, the text [li Hello] indented one unit, and the closing [ul]
    tag. *)
Theorem C3_inline_text_child :
  Compiler.new (lit "ul: li Hello")
  = [ Compiler.mkLine (lit "ul:") 0 (Compiler.Tag (lit "ul")) JsObject.empty;
      Compiler.mkLine (lit "li Hello") 1 Compiler.NO_TAG JsObject.empty ] /\
  compileTemplate (lit "ul: li Hello")
  = concat [ lit "<ul>" ++ [NL]; TAB :: lit "li Hello" ++ [NL];
             lit "</ul>" ++ [NL] ] /\
  run (lit "ul: li Hello") = Some (compileTemplate (lit "ul: li Hello")).
Proof. repeat split; vm_compute; reflexivity. Qed.

(** A line that is split is replaced by its truncated text, and the line
    spliced after it is the next one the loop scans. *)
Lemma expand_split l parent child rest :
  Compiler.splitLine l = Some (parent, child) ->
  Compiler._expandSingleLineStatements (l :: rest)
  = parent :: Compiler._expandSingleLineStatements (child :: rest).
Proof.
  intros H. rewrite Compiler._expandSingleLineStatements_equation_2.
  destruct (inspect (Compiler.splitLine l)) as [[[p c]|] e].
  - rewrite Compiler._expandSingleLineStatements_clause_2_equation_1.
    assert (Hpc : Some (p, c) = Some (parent, child)) by congruence.
    injection Hpc as -> ->. reflexivity.
  - congruence.
Qed.

Lemma expand_keep l rest :
  Compiler.splitLine l = None ->
  Compiler._expandSingleLineStatements (l :: rest)
  = l :: Compiler._expandSingleLineStatements rest.
Proof.
  intros H. rewrite Compiler._expandSingleLineStatements_equation_2.
  destruct (inspect (Compiler.splitLine l)) as [[[p c]|] e]; [congruence|].
  apply Compiler._expandSingleLineStatements_clause_2_equation_2.
Qed.

(** What a split leaves in the two lines. *)
Lemma splitLine_fields l parent child :
  Compiler.splitLine l = Some (parent, child) ->
  exists j,
    Compiler.colonAt (Compiler.line l) 0 false = Some j /\
    Compiler.line parent = substring (Compiler.line l) 0 (j + 1) /\
    Compiler.level parent = Compiler.level l /\
    Compiler.props parent = Compiler.props l /\
    Compiler.tag parent = Compiler.tag l /\
    Compiler.line child = trim (substringFrom (Compiler.line l) (j + 1)) /\
    Compiler.level child = Compiler.level l + 1 /\
    Compiler.props child = JsObject.empty /\
    Compiler.tag child = Compiler.TagNull.
Proof.
  unfold Compiler.splitLine.
  destruct (Compiler.colonAt (Compiler.line l) 0 false) as [j|]; [|discriminate].
  destruct (_ =? 0); [discriminate|].
  intros H. injection H as <- <-. exists j. repeat split.
Qed.

(** Induction along the run of the expansion loop. *)
Lemma expand_ind (P : list Compiler.Line -> list Compiler.Line -> Prop) :
  P [] [] ->
  (forall l parent child rest,
      Compiler.splitLine l = Some (parent, child) ->
      P (child :: rest) (Compiler._expandSingleLineStatements (child :: rest)) ->
      P (l :: rest)
        (parent :: Compiler._expandSingleLineStatements (child :: rest))) ->
  (forall l rest,
      Compiler.splitLine l = None ->
      P rest (Compiler._expandSingleLineStatements rest) ->
      P (l :: rest) (l :: Compiler._expandSingleLineStatements rest)) ->
  forall lines, P lines (Compiler._expandSingleLineStatements lines).
Proof.
  intros Hnil Hsplit Hkeep.
  apply (Compiler._expandSingleLineStatements_elim P).
  - exact Hnil.
  - intros l parent child e rest IH _. now apply Hsplit.
  - intros l e rest IH _. now apply Hkeep.
Qed.

(** C10: the expansion cascades.  The line [a: b: c] at level [k] becomes
    the three lines [a:] at level [k], [b:] at level [k + 1] and [c] at level
    [k + 2], whatever lines follow it. *)
Theorem C10_expansion_cascades (k : nat) (rest : list Compiler.Line) :
  Compiler._expandSingleLineStatements
    (Compiler.newLine (lit "a: b: c") k :: rest)
  = Compiler.newLine (lit "a:") k
    :: Compiler.newLine (lit "b:") (k + 1)
    :: Compiler.newLine (lit "c") (k + 2)
    :: Compiler._expandSingleLineStatements rest.
Proof.
  rewrite (expand_split _ (Compiler.newLine (lit "a:") k)
             (Compiler.newLine (lit "b: c") (k + 1))) by reflexivity.
  rewrite (expand_split _ (Compiler.newLine (lit "b:") (k + 1))
             (Compiler.newLine (lit "c") (k + 1 + 1))) by reflexivity.
  rewrite expand_keep by reflexivity.
  replace (k + 1 + 1) with (k + 2) by lia.
  reflexivity.
Qed.

(** ** Lines without a closing parenthesis *)

Lemma parensFrom_open s : forall i start,
  existsb (fun d => Ascii.eqb d ")") s = false ->
  Compiler.parensFrom s i true start = None.
Proof.
  induction s as [|c r IH]; simpl; intros i start H; [reflexivity|].
  apply orb_false_iff in H as [Hc Hr].
  rewrite Hc. simpl. apply IH, Hr.
Qed.

Lemma parensFrom_unterminated s : forall i start,
  unterminated s = true ->
  Compiler.parensFrom s i false start = None.
Proof.
  induction s as [|c r IH]; simpl; intros i start H; [discriminate|].
  destruct (Ascii.eqb c "("); simpl.
  - apply parensFrom_open. now apply negb_true_iff.
  - apply IH, H.
Qed.

(** C8: on a line whose first [(] is never followed by a [)] the named
    attributes are the empty object; the parsed line carries the [id] and
    [class] entries only, and it compiles to its opening tag followed by its
    closing tag. *)
Theorem C8_unterminated_parenthesis (l : str) (lv : nat) :
  unterminated l = true ->
  let parsed := Compiler.parseLine (Compiler.newLine l lv) in
  Compiler._parseProps l = JsObject.empty /\
  Compiler.props parsed
  = Compiler.setIf (Compiler.truthy (Compiler._parseClasses l))
      (Compiler.setIf (Compiler.truthy (Compiler._parseId l))
         JsObject.empty (lit "id") (Compiler._parseId l))
      (lit "class") (Compiler._parseClasses l) /\
  Compiler.compile [parsed]
  = Compiler._getOpeningTag parsed ++ Compiler._getClosingTag parsed.
Proof.
  intros H parsed.
  assert (Hp : Compiler._parseProps l = JsObject.empty).
  { unfold Compiler._parseProps.
    now rewrite parensFrom_unterminated. }
  split; [exact Hp|]. split.
  - subst parsed. unfold Compiler.parseLine. simpl. rewrite Hp. reflexivity.
  - reflexivity.
Qed.

Lemma C8_unterminated_parenthesis_witness :
  unterminated (lit "a#x(href:y") = true /\
  Compiler._parseProps (lit "a#x(href:y") = JsObject.empty /\
  Compiler.props (Compiler.parseLine (Compiler.newLine (lit "a#x(href:y") 0))
  = [(lit "id", lit "x")].
Proof.
  split; [reflexivity|].
  destruct (C8_unterminated_parenthesis (lit "a#x(href:y") 0 eq_refl)
    as [Hp [Hprops _]].
  split; [exact Hp|]. rewrite Hprops. reflexivity.
Defined.

(** ** Untagged lines *)

(** The emitter compares the tag with [1] loosely: a line whose tag is a
    numeral of value one is written as text, attributes or not. *)
Example numeral_tag_is_written_as_text :
  Compiler.new (lit "1#x:")
  = [ Compiler.mkLine (lit "1#x:") 0 (Compiler.Tag (lit "1"))
        [(lit "id", lit "x")] ] /\
  compileTemplate (lit "1#x:") = lit "1#x:" ++ [NL].
Proof. split; reflexivity. Qed.

Section NoDelimiter.

Variable s : str.
Hypothesis noDelimiter : Compiler._parseTag s = Compiler.NO_TAG.

Lemma findFrom_None p (t : str) : forall i,
  findFrom p t i = None -> Forall (fun c => p c = false) t.
Proof.
  induction t as [|c r IH]; simpl; intros i H; [constructor|].
  destruct (p c) eqn:Hc; [discriminate|].
  constructor; [exact Hc|]. eapply IH, H.
Qed.

Lemma untagged_chars : Forall (fun c => Compiler.isTagEnd c = false) s.
Proof.
  unfold Compiler._parseTag in noDelimiter.
  destruct (findFrom Compiler.isTagEnd s 0) eqn:H; [discriminate|].
  eapply findFrom_None, H.
Qed.

Lemma untagged_parseIdFrom l t : forall i,
  Forall (fun c => Compiler.isTagEnd c = false) t ->
  Compiler.parseIdFrom l t i = None.
Proof.
  induction t as [|c r IH]; simpl; intros i H; [reflexivity|].
  inversion H as [|? ? Hc Hr]; subst.
  unfold Compiler.isTagEnd in Hc.
  destruct (Ascii.eqb c "#"); [discriminate|]. apply IH, Hr.
Qed.

Lemma untagged_classesFrom l t : forall i b acc,
  Forall (fun c => Compiler.isTagEnd c = false) t ->
  Compiler.classesFrom l t i b acc = acc.
Proof.
  induction t as [|c r IH]; simpl; intros i b acc H; [reflexivity|].
  inversion H as [|? ? Hc Hr]; subst.
  unfold Compiler.isTagEnd in Hc.
  destruct (Ascii.eqb c "#"); [discriminate|].
  destruct (Ascii.eqb c "."); [discriminate|].
  destruct (Ascii.eqb c "("); [discriminate|].
  rewrite andb_false_r.
  destruct (Ascii.eqb c ")"); apply IH, Hr.
Qed.

Lemma untagged_parensFrom t : forall i start,
  Forall (fun c => Compiler.isTagEnd c = false) t ->
  Compiler.parensFrom t i false start = None.
Proof.
  induction t as [|c r IH]; simpl; intros i start H; [reflexivity|].
  inversion H as [|? ? Hc Hr]; subst.
  unfold Compiler.isTagEnd in Hc.
  destruct (Ascii.eqb c "#"); [discriminate|].
  destruct (Ascii.eqb c "."); [discriminate|].
  destruct (Ascii.eqb c "("); [discriminate|].
  simpl. apply IH, Hr.
Qed.

(** A line without [#], [.], [(] and [:] gets no attribute at all. *)
Lemma untagged_parseLine lv :
  Compiler.parseLine (Compiler.newLine s lv)
  = Compiler.mkLine s lv Compiler.NO_TAG JsObject.empty.
Proof.
  pose proof untagged_chars as Hs.
  unfold Compiler.parseLine, Compiler.newLine; simpl.
  rewrite noDelimiter. f_equal.
  unfold Compiler._parseProps, Compiler._parseId, Compiler._parseClasses.
  rewrite untagged_parensFrom, untagged_parseIdFrom, untagged_classesFrom by exact Hs.
  reflexivity.
Qed.

End NoDelimiter.

(** The lines of the expansion are fresh or truncated line objects: their
    [props] are still empty. *)
Lemma expand_props_empty lines :
  Forall (fun l => Compiler.props l = JsObject.empty) lines ->
  Forall (fun l => Compiler.props l = JsObject.empty)
    (Compiler._expandSingleLineStatements lines).
Proof.
  apply (expand_ind (fun lines out =>
    Forall (fun l => Compiler.props l = JsObject.empty) lines ->
    Forall (fun l => Compiler.props l = JsObject.empty) out)).
  - constructor.
  - intros l parent child rest Hs IH HF.
    inversion HF as [|? ? Hl Hrest]; subst.
    apply splitLine_fields in Hs as (j & _ & _ & _ & Hp & _ & _ & _ & Hc & _).
    constructor; [congruence|]. apply IH. constructor; assumption.
  - intros l rest _ IH HF.
    inversion HF as [|? ? Hl Hrest]; subst.
    constructor; [exact Hl|]. apply IH, Hrest.
Qed.

Lemma new_lines_parsed content L :
  In L (Compiler.new content) ->
  exists l, L = Compiler.parseLine l /\ Compiler.props l = JsObject.empty.
Proof.
  unfold Compiler.new, Compiler._parseLines. intros H.
  apply in_map_iff in H as [l [<- Hl]].
  exists l. split; [reflexivity|].
  assert (HF : Forall (fun l => Compiler.props l = JsObject.empty)
                 (Compiler._expandSingleLineStatements
                    (Compiler._getLineObjects content))).
  { apply expand_props_empty. unfold Compiler._getLineObjects.
    apply Forall_forall. intros x Hx.
    apply in_map_iff in Hx as [y [<- _]]. reflexivity. }
  rewrite Forall_forall in HF. apply HF, Hl.
Qed.

(** C9: a parsed line whose tag is the sentinel [NO_TAG] has no attributes,
    its opening text is the line's text behind [level] indent units and
    before a line break, and its closing text is empty. *)
Theorem C9_untagged_line_is_raw_text (content : str) (L : Compiler.Line) :
  In L (Compiler.new content) ->
  Compiler.tag L = Compiler.NO_TAG ->
  Compiler.props L = JsObject.empty /\
  Compiler._getOpeningTag L = tabs (Compiler.level L) ++ Compiler.line L ++ [NL] /\
  Compiler._getClosingTag L = [].
Proof.
  intros HIn Htag.
  destruct (new_lines_parsed content L HIn) as [l [-> Hprops]].
  destruct l as [s lv t p]. simpl in Hprops. subst p.
  assert (Hs : Compiler._parseTag s = Compiler.NO_TAG) by exact Htag.
  assert (HL : Compiler.parseLine (Compiler.mkLine s lv t JsObject.empty)
               = Compiler.mkLine s lv Compiler.NO_TAG JsObject.empty).
  { rewrite <- (untagged_parseLine s Hs lv). reflexivity. }
  rewrite HL. repeat split.
Qed.

Lemma C9_untagged_line_is_raw_text_witness :
  In (Compiler.mkLine (lit "Hello world") 1 Compiler.NO_TAG JsObject.empty)
    (Compiler.new (lit "p:" ++ NL :: TAB :: lit "Hello world")) /\
  Compiler._getOpeningTag
    (Compiler.mkLine (lit "Hello world") 1 Compiler.NO_TAG JsObject.empty)
  = TAB :: lit "Hello world" ++ [NL] /\
  Compiler._getClosingTag
    (Compiler.mkLine (lit "Hello world") 1 Compiler.NO_TAG JsObject.empty)
  = [].
Proof.
  assert (HIn : In (Compiler.mkLine (lit "Hello world") 1 Compiler.NO_TAG
                      JsObject.empty)
                  (Compiler.new (lit "p:" ++ NL :: TAB :: lit "Hello world"))).
  { right. left. reflexivity. }
  split; [exact HIn|].
  exact (proj2 (C9_untagged_line_is_raw_text _ _ HIn eq_refl)).
Defined.

(** ** Attribute precedence *)

Section Objects.

Import JsObject.

Lemma streq_eq a : forall b, streq a b = true <-> a = b.
Proof.
  induction a as [|c a IH]; intros [|d b]; simpl; split; intros H;
    try discriminate; try reflexivity.
  - apply andb_true_iff in H as [Hc Hr].
    apply Ascii.eqb_eq in Hc. apply IH in Hr. congruence.
  - injection H as -> ->. rewrite Ascii.eqb_refl. simpl. now apply IH.
Qed.

Lemma streq_refl a : streq a a = true.
Proof. now apply streq_eq. Qed.

Lemma streq_neq a b : a <> b -> streq a b = false.
Proof.
  intros H. destruct (streq a b) eqn:E; [|reflexivity].
  apply streq_eq in E. contradiction.
Qed.

Lemma get_put_same o k v : get (put o k v) k = Some v.
Proof.
  induction o as [|[k' v'] r IH]; simpl.
  - now rewrite streq_refl.
  - destruct (streq k' k) eqn:E; simpl; rewrite E; [reflexivity|exact IH].
Qed.

Lemma get_put_other o k' v' k : k' <> k -> get (put o k' v') k = get o k.
Proof.
  intros Hne. induction o as [|[k0 v0] r IH]; simpl.
  - now rewrite streq_neq.
  - destruct (streq k0 k') eqn:E; simpl.
    + apply streq_eq in E. subst k0. now rewrite (streq_neq _ _ Hne).
    + now rewrite IH.
Qed.

Lemma get_set_other o k' v' k : k' <> k -> get (set o k' v') k = get o k.
Proof.
  intros Hne. unfold set.
  destruct (streq k' (lit "__proto__")); [reflexivity|].
  now apply get_put_other.
Qed.

Lemma get_In o k v : get o k = Some v -> In (k, v) o.
Proof.
  induction o as [|[k' v'] r IH]; simpl; [discriminate|].
  destruct (streq k' k) eqn:E.
  - apply streq_eq in E. intros H. injection H as ->. left. congruence.
  - intros H. right. now apply IH.
Qed.

Lemma put_keys o k v :
  map fst (put o k v)
  = if existsb (fun k' => streq k' k) (map fst o) then map fst o
    else map fst o ++ [k].
Proof.
  induction o as [|[k' v'] r IH]; simpl; [reflexivity|].
  destruct (streq k' k); simpl; [reflexivity|].
  rewrite IH. now destruct (existsb _ _).
Qed.

Lemma put_NoDup o k v : NoDup (map fst o) -> NoDup (map fst (put o k v)).
Proof.
  intros H. rewrite put_keys.
  destruct (existsb _ _) eqn:E; [exact H|].
  apply NoDup_app; [exact H|repeat constructor; intros []|].
  intros x Hx [Hk|[]]. subst x.
  assert (Ht : existsb (fun k' => streq k' k) (map fst o) = true).
  { apply existsb_exists. exists k. split; [exact Hx|apply streq_refl]. }
  congruence.
Qed.

Lemma set_NoDup o k v : NoDup (map fst o) -> NoDup (map fst (set o k v)).
Proof.
  intros H. unfold set. destruct (streq _ _); [exact H|now apply put_NoDup].
Qed.

(** The head of the insertion order keeps its place. *)
Lemma set_head k0 v0 o k v :
  exists v1 o1, set ((k0, v0) :: o) k v = (k0, v1) :: o1.
Proof.
  unfold set. destruct (streq k _); [now eauto|].
  simpl. destruct (streq k0 k); eauto.
Qed.

Lemma fold_set_head es : forall k0 v0 o,
  exists v1 o1,
    fold_left (fun o e => set o (fst e) (snd e)) es ((k0, v0) :: o)
    = (k0, v1) :: o1.
Proof.
  induction es as [|[k v] r IH]; simpl; intros k0 v0 o; [eauto|].
  destruct (set_head k0 v0 o k v) as (v1 & o1 & ->). apply IH.
Qed.

Lemma fold_set_absent es k : forall o,
  ~ In k (map fst es) ->
  get (fold_left (fun o e => set o (fst e) (snd e)) es o) k = get o k.
Proof.
  induction es as [|[k' v'] r IH]; simpl; intros o H; [reflexivity|].
  rewrite IH by tauto. apply get_set_other. tauto.
Qed.

(** After the assignments [es], made in order, a key named once in [es]
    holds the value given there. *)
Lemma fold_set_present es k v : forall o,
  streq k (lit "__proto__") = false ->
  NoDup (map fst es) -> In (k, v) es ->
  get (fold_left (fun o e => set o (fst e) (snd e)) es o) k = Some v.
Proof.
  intros o Hk. revert o.
  induction es as [|[k' v'] r IH]; simpl; intros o Hnd Hin; [contradiction|].
  inversion Hnd as [|? ? Hnotin Hnd']; subst.
  destruct Hin as [Heq|Hin].
  - injection Heq as -> ->.
    rewrite fold_set_absent by exact Hnotin.
    unfold set. rewrite Hk. apply get_put_same.
  - apply IH; assumption.
Qed.

Lemma insertIndex_perm n e l :
  Permutation (map snd (insertIndex n e l)) (e :: map snd l).
Proof.
  induction l as [|[m e'] r IH]; simpl; [reflexivity|].
  destruct (n <? m)%N; simpl; [reflexivity|].
  rewrite IH. apply perm_swap.
Qed.

(** The enumeration lists every own property once. *)
Lemma entries_perm o : Permutation (entries o) o.
Proof.
  unfold entries. induction o as [|[k v] r IH]; simpl; [reflexivity|].
  destruct (arrayIndex k); simpl.
  - rewrite insertIndex_perm. simpl. now constructor.
  - rewrite <- Permutation_middle. now constructor.
Qed.

(** What every assignment of the loop keeps, the loop keeps; the keys and
    the values it assigns are substrings of the text it scans. *)
Lemma propsLoop_invariant (P : obj -> Prop) s :
  (forall o a b c d,
      P o -> P (set o (substring s a b) (substring s c d))) ->
  forall i st props, P props -> P (Compiler.propsLoop s i st props).
Proof.
  intros Hset i st props.
  funelim (Compiler.propsLoop s i st props); intros HP;
    try (rewrite <- Heqcall); [assumption | apply H; auto ..].
Qed.

Lemma parseProps_NoDup l : NoDup (map fst (Compiler._parseProps l)).
Proof.
  unfold Compiler._parseProps.
  destruct (Compiler.parensFrom l 0 false 0) as [[a b]|]; [|constructor].
  apply (propsLoop_invariant (fun o => NoDup (map fst o))).
  - intros o i j i' j'. apply set_NoDup.
  - constructor.
Qed.

End Objects.

(** The order of assembly.  On a line with a truthy [#] id, whose group the
    attribute loop reads as holding the key [id], the attribute object is
    assembled by assigning [id], then [class] when there is one, then the
    named attributes in their enumeration order; [id] stays the first
    property and holds the value the loop read. *)
Lemma named_id_overrides_when_read (l : str) (lv : nat) (id v : str) :
  Compiler._parseId l = Some id ->
  Compiler.truthy (Some id) = true ->
  JsObject.get (Compiler._parseProps l) (lit "id") = Some v ->
  let parsed := Compiler.parseLine (Compiler.newLine l lv) in
  Compiler.props parsed
  = fold_left (fun o e => JsObject.set o (fst e) (snd e))
      (JsObject.entries (Compiler._parseProps l))
      (Compiler.setIf (Compiler.truthy (Compiler._parseClasses l))
         [(lit "id", id)] (lit "class") (Compiler._parseClasses l)) /\
  (exists rest, Compiler.props parsed = (lit "id", v) :: rest) /\
  JsObject.get (Compiler.props parsed) (lit "id") = Some v.
Proof.
  intros Hid Htruthy Hget parsed.
  assert (Hprops : Compiler.props parsed
    = fold_left (fun o e => JsObject.set o (fst e) (snd e))
        (JsObject.entries (Compiler._parseProps l))
        (Compiler.setIf (Compiler.truthy (Compiler._parseClasses l))
           [(lit "id", id)] (lit "class") (Compiler._parseClasses l))).
  { subst parsed. unfold Compiler.parseLine. simpl.
    rewrite Hid, Htruthy. reflexivity. }
  assert (Hfinal : JsObject.get (Compiler.props parsed) (lit "id") = Some v).
  { rewrite Hprops. apply fold_set_present.
    - reflexivity.
    - eapply Permutation_NoDup; [|apply parseProps_NoDup].
      apply Permutation_map. symmetry. apply entries_perm.
    - eapply Permutation_in; [symmetry; apply entries_perm|].
      apply get_In, Hget. }
  split; [exact Hprops|]. split; [|exact Hfinal].
  assert (Hhead : exists v1 o1,
    Compiler.setIf (Compiler.truthy (Compiler._parseClasses l))
      [(lit "id", id)] (lit "class") (Compiler._parseClasses l)
    = (lit "id", v1) :: o1).
  { unfold Compiler.setIf.
    destruct (Compiler._parseClasses l) as [c|]; [|eauto].
    destruct (Compiler.truthy (Some c)); [|eauto].
    apply set_head. }
  destruct Hhead as (v1 & o1 & Hhead).
  destruct (fold_set_head (JsObject.entries (Compiler._parseProps l))
              (lit "id") v1 o1) as (v2 & o2 & Hfold).
  rewrite Hhead, Hfold in Hprops.
  rewrite Hprops in Hfinal. simpl in Hfinal.
  exists o2. rewrite Hprops. congruence.
Qed.

(** C4: a named attribute [id] overrides the id of the shorthand only when
    the attribute loop reads its name whole, which it does for the first
    attribute of a group alone.  On [div#x(a:b id:y)] the loop steps over
    the first character of the second name and assigns [y] to the key [d]:
    the [id] of the shorthand keeps the value [x], and that is what the
    opening tag carries.  On [div#x(id:y)], the example of the
    specification, the named attribute stands first and overrides. *)
Theorem C4_later_named_id_does_not_override :
  Compiler._parseProps (lit "div#x(a:b id:y)")
  = [(lit "a", lit "b"); (lit "d", lit "y")] /\
  Compiler.new (lit "div#x(a:b id:y)")
  = [ Compiler.mkLine (lit "div#x(a:b id:y)") 0 (Compiler.Tag (lit "div"))
        [(lit "id", lit "x"); (lit "a", lit "b"); (lit "d", lit "y")] ] /\
  compileTemplate (lit "div#x(a:b id:y)")
  = lit "<div id=" ++ quoted (lit "x") ++ lit " a=" ++ quoted (lit "b")
    ++ lit " d=" ++ quoted (lit "y") ++ lit ">" ++ [NL]
    ++ lit "</div>" ++ [NL] /\
  Compiler.new (lit "div#x(id:y)")
  = [ Compiler.mkLine (lit "div#x(id:y)") 0 (Compiler.Tag (lit "div"))
        [(lit "id", lit "y")] ] /\
  compileTemplate (lit "div#x(id:y)")
  = lit "<div id=" ++ quoted (lit "y") ++ lit ">" ++ [NL]
    ++ lit "</div>" ++ [NL].
Proof. repeat split; vm_compute; reflexivity. Qed.

(** ** Normalisation *)

Section Strings.

Lemma dropWhile_nil p s : dropWhile p s = [] <-> forallb p s = true.
Proof.
  induction s as [|c r IH]; simpl; [tauto|].
  destruct (p c); simpl; [exact IH|]. split; discriminate.
Qed.

Lemma dropWhile_head p s c r : dropWhile p s = c :: r -> p c = false.
Proof.
  induction s as [|d t IH]; simpl; [discriminate|].
  destruct (p d) eqn:E; [exact IH|]. intros H. now injection H as <- _.
Qed.

Lemma forallb_rev_true (p : ascii -> bool) s :
  forallb p (rev s) = true <-> forallb p s = true.
Proof.
  rewrite !forallb_forall. split; intros H x Hx; apply H.
  - now apply in_rev in Hx.
  - now apply in_rev.
Qed.

(** A line is blank when all its characters are white space. *)
Lemma blank_iff l : blank l = true <-> forallb isWhiteSpace l = true.
Proof.
  unfold blank, trim. rewrite Nat.eqb_eq, length_rev, length_zero_iff_nil.
  rewrite dropWhile_nil, forallb_rev_true. split; intros H.
  - destruct (dropWhile isWhiteSpace l) as [|c r] eqn:E.
    + now apply dropWhile_nil.
    + apply dropWhile_head in E. simpl in H. rewrite E in H. discriminate.
  - apply dropWhile_nil in H. now rewrite H.
Qed.

Lemma takeWhile_dropWhile p s : takeWhile p s ++ dropWhile p s = s.
Proof.
  induction s as [|c r IH]; simpl; [reflexivity|].
  destruct (p c); simpl; [now rewrite IH|reflexivity].
Qed.

Lemma skipn_takeWhile p s : skipn (length (takeWhile p s)) s = dropWhile p s.
Proof.
  induction s as [|c r IH]; simpl; [reflexivity|].
  destruct (p c); simpl; [exact IH|reflexivity].
Qed.

Lemma takeWhile_all p s : Forall (fun c => p c = true) (takeWhile p s).
Proof.
  induction s as [|c r IH]; simpl; [constructor|].
  destruct (p c) eqn:E; constructor; assumption.
Qed.

Lemma findFrom_dropWhile p s : forall i,
  findFrom (fun c => negb (p c)) s i
  = match dropWhile p s with
    | [] => None
    | _ :: _ => Some (i + length (takeWhile p s))
    end.
Proof.
  induction s as [|c r IH]; simpl; intros i; [reflexivity|].
  destruct (p c); simpl.
  - rewrite IH. destruct (dropWhile p r); [reflexivity|]. f_equal. lia.
  - f_equal. lia.
Qed.

(** The lines of a split text hold no line break. *)
Lemma split_no_NL s : Forall (fun l => ~ In NL l) (split s).
Proof.
  induction s as [|c r IH]; simpl.
  - constructor; [intros []|constructor].
  - destruct (Ascii.eqb c NL) eqn:E.
    + constructor; [intros []|exact IH].
    + assert (Hc : c <> NL).
      { intros ->. rewrite Ascii.eqb_refl in E. discriminate. }
      destruct (split r) as [|l ls].
      * constructor; [|constructor]. intros [H|[]]. congruence.
      * inversion IH as [|? ? Hl Hls]; subst.
        constructor; [|exact Hls].
        intros [H|Hin]; [congruence|contradiction].
Qed.

Lemma split_app_NL l rest :
  ~ In NL l -> split (l ++ NL :: rest) = l :: split rest.
Proof.
  induction l as [|c r IH]; simpl; intros H.
  - reflexivity.
  - destruct (Ascii.eqb c NL) eqn:E.
    + apply Ascii.eqb_eq in E. tauto.
    + rewrite IH by tauto. reflexivity.
Qed.

Lemma split_line l : ~ In NL l -> split l = [l].
Proof.
  induction l as [|c r IH]; simpl; intros H; [reflexivity|].
  destruct (Ascii.eqb c NL) eqn:E.
  - apply Ascii.eqb_eq in E. tauto.
  - rewrite IH by tauto. reflexivity.
Qed.

(** Splitting undoes joining, except for the empty array. *)
Lemma split_join lines :
  lines <> [] -> Forall (fun l => ~ In NL l) lines ->
  split (join [NL] lines) = lines.
Proof.
  induction lines as [|l rest IH]; intros Hne HF; [congruence|].
  inversion HF as [|? ? Hl Hrest]; subst.
  destruct rest as [|l' rest'].
  - simpl. now apply split_line.
  - change (join [NL] (l :: l' :: rest'))
      with (l ++ NL :: join [NL] (l' :: rest')).
    rewrite split_app_NL by exact Hl.
    f_equal. apply IH; [discriminate|exact Hrest].
Qed.

End Strings.

Section Rewriting.

Import PreProcessor.

(** The loop test [j < a / b] against the quotient rounded up. *)
Lemma loop_test a b j : 1 <= b -> (j * b <? a) = (j <? ceilDiv a b).
Proof.
  intros Hb. unfold ceilDiv.
  destruct (j * b <? a) eqn:E; symmetry.
  - apply Nat.ltb_lt in E. apply Nat.ltb_lt.
    apply (Nat.div_le_lower_bound (a + b - 1) b (S j)); nia.
  - apply Nat.ltb_ge in E. apply Nat.ltb_ge.
    assert (H : (a + b - 1) / b < S j); [|lia].
    apply Nat.Div0.div_lt_upper_bound. nia.
Qed.

Lemma ceilDiv_le a b : 1 <= b -> ceilDiv a b <= a.
Proof.
  intros Hb. unfold ceilDiv.
  assert (H : (a + b - 1) / b < S a); [|lia].
  apply Nat.Div0.div_lt_upper_bound. nia.
Qed.

(** With a positive divisor the loop ends and has appended the missing
    tabs. *)
Lemma tabsLoop_ceil a b : 1 <= b -> forall fuel j acc,
  ceilDiv a b - j <= fuel ->
  tabsLoop fuel j a b acc = Some (acc ++ tabs (ceilDiv a b - j)).
Proof.
  intros Hb. induction fuel as [|fuel IH]; intros j acc Hf.
  - simpl. rewrite (loop_test a b j Hb).
    destruct (j <? ceilDiv a b) eqn:E.
    + apply Nat.ltb_lt in E. lia.
    + apply Nat.ltb_ge in E.
      replace (ceilDiv a b - j) with 0 by lia. simpl. now rewrite app_nil_r.
  - simpl. rewrite (loop_test a b j Hb).
    destruct (j <? ceilDiv a b) eqn:E.
    + apply Nat.ltb_lt in E. rewrite IH by lia.
      rewrite <- app_assoc.
      replace (ceilDiv a b - j) with (S (ceilDiv a b - S j)) by lia.
      reflexivity.
    + apply Nat.ltb_ge in E.
      replace (ceilDiv a b - j) with 0 by lia. simpl. now rewrite app_nil_r.
Qed.

(** With the divisor zero the loop does not end on a line that begins with
    a space. *)
Lemma tabsLoop_zero a : 1 <= a -> forall fuel j acc,
  tabsLoop fuel j a 0 acc = None.
Proof.
  intros Ha. induction fuel as [|fuel IH]; intros j acc; simpl;
    rewrite Nat.mul_0_r; destruct a; try lia; simpl; [reflexivity|apply IH].
Qed.

Lemma isSpace_white c : isSpace c = true -> isWhiteSpace c = true.
Proof.
  unfold isSpace. intros H. apply Ascii.eqb_eq in H. now subst c.
Qed.

Lemma spacesEndAt_leading l :
  blank l = false -> spacesEndAt l = Some (leadingSpaces l).
Proof.
  intros Hb. unfold spacesEndAt.
  change (fun c => negb (Ascii.eqb c SPACE)) with (fun c => negb (isSpace c)).
  rewrite findFrom_dropWhile.
  destruct (dropWhile isSpace l) eqn:E; [|reflexivity].
  apply dropWhile_nil in E.
  assert (Hw : forallb isWhiteSpace l = true).
  { rewrite forallb_forall in *. intros x Hx. apply isSpace_white, E, Hx. }
  apply blank_iff in Hw. congruence.
Qed.

Lemma replaceLine_rewritten w l :
  1 <= w -> blank l = false -> replaceLine w l = Some (rewritten w l).
Proof.
  intros Hw Hb. unfold replaceLine. rewrite (spacesEndAt_leading l Hb).
  rewrite (tabsLoop_ceil _ w Hw).
  - rewrite Nat.sub_0_r. reflexivity.
  - pose proof (ceilDiv_le (leadingSpaces l) w Hw). lia.
Qed.

Lemma replace_rewritten w lines :
  1 <= w -> Forall (fun l => blank l = false) lines ->
  _replaceSpacesWithTabs w lines = Some (map (rewritten w) lines).
Proof.
  intros Hw. induction 1 as [|l rest Hl Hrest IH]; simpl; [reflexivity|].
  now rewrite (replaceLine_rewritten w l Hw Hl), IH.
Qed.

Lemma removeEmptyLines_not_blank lines :
  Forall (fun l => blank l = false) (_removeEmptyLines lines).
Proof.
  apply Forall_forall. intros l Hl.
  apply filter_In in Hl as [_ Hl]. now apply negb_true_iff in Hl.
Qed.

Lemma removeEmptyLines_id lines :
  Forall (fun l => blank l = false) lines -> _removeEmptyLines lines = lines.
Proof.
  induction 1 as [|l rest Hl Hrest IH]; simpl; [reflexivity|].
  fold (blank l). rewrite Hl. simpl. f_equal. exact IH.
Qed.

Lemma countSpaces_leading l : forall n,
  blank l = false -> countSpaces l n = Some (n + leadingSpaces l).
Proof.
  induction l as [|c r IH]; intros n Hb; [discriminate|].
  simpl. unfold leadingSpaces. simpl. fold (isSpace c).
  destruct (isSpace c) eqn:E; simpl.
  - rewrite IH.
    + f_equal. unfold leadingSpaces. lia.
    + destruct (blank r) eqn:Hr; [|reflexivity].
      apply blank_iff in Hr.
      assert (Hcr : forallb isWhiteSpace (c :: r) = true).
      { simpl. now rewrite (isSpace_white c E), Hr. }
      apply blank_iff in Hcr. congruence.
  - f_equal. lia.
Qed.

(** In a document indented with spaces the inferred width is positive. *)
Lemma spacesPerTab_positive lines :
  Forall (fun l => blank l = false) lines ->
  _getIndentationType lines = INDENTED_WITH_SPACES ->
  1 <= _getSpacesPerTab lines.
Proof.
  induction 1 as [|l rest Hl Hrest IH];
    cbn [_getIndentationType _getSpacesPerTab]; [intros H; discriminate H|].
  destruct (charIs SPACE (charAt l 0)) eqn:E.
  - intros _. rewrite (countSpaces_leading l 0 Hl).
    destruct l as [|c r]; [discriminate|].
    cbn in E. unfold leadingSpaces, isSpace. cbn [takeWhile].
    rewrite E. simpl. lia.
  - destruct (charIs TAB (charAt l 0)); [intros H; discriminate H|exact IH].
Qed.

End Rewriting.

(** C5, as the specification states it, fails: with the width 2 inferred
    from the first line, the three leading spaces of the second line become
    two indent units, where the quotient rounded down gives one. *)
Lemma C5_three_spaces_two_units :
  PreProcessor._getSpacesPerTab [lit "  a"; lit "   b"] = 2 /\
  PreProcessor.process (lit "  a" ++ NL :: lit "   b")
  = Some (TAB :: lit "a" ++ NL :: TAB :: TAB :: lit "b") /\
  PreProcessor.process (lit "  a" ++ NL :: lit "   b")
  <> Some (join [NL] (map (rewrittenFloor 2) [lit "  a"; lit "   b"])).
Proof.
  split; [reflexivity|]. split; [vm_compute; reflexivity|].
  vm_compute. discriminate.
Qed.

(** C5, amended: in a document indented with spaces the inferred width [w]
    is positive, and every line that is kept has its leading run of [n]
    spaces replaced by the quotient [n / w] rounded up many indent units. *)
Theorem C5_spaces_to_units_rounded_up (content : str) :
  let lines := PreProcessor._removeEmptyLines (split content) in
  let w := PreProcessor._getSpacesPerTab lines in
  PreProcessor._getIndentationType lines = PreProcessor.INDENTED_WITH_SPACES ->
  1 <= w /\
  PreProcessor.process content = Some (join [NL] (map (rewritten w) lines)) /\
  Forall (fun l => rewritten w l
                   = tabs ((leadingSpaces l + w - 1) / w)
                     ++ skipn (leadingSpaces l) l) lines.
Proof.
  intros lines w Htype.
  pose proof (removeEmptyLines_not_blank (split content)) as Hnb.
  fold lines in Hnb.
  assert (Hw : 1 <= w) by now apply spacesPerTab_positive.
  split; [exact Hw|]. split.
  - unfold PreProcessor.process, PreProcessor.processLines, PreProcessor.new.
    fold lines. rewrite Htype. fold w.
    now rewrite (replace_rewritten w lines Hw Hnb).
  - apply Forall_forall. intros l _. reflexivity.
Qed.

Lemma C5_spaces_to_units_rounded_up_witness :
  PreProcessor._getIndentationType
    (PreProcessor._removeEmptyLines (split (lit "  a" ++ NL :: lit "   b")))
  = PreProcessor.INDENTED_WITH_SPACES /\
  PreProcessor.process (lit "  a" ++ NL :: lit "   b")
  = Some (TAB :: lit "a" ++ NL :: TAB :: TAB :: lit "b").
Proof.
  split; [reflexivity|].
  destruct (C5_spaces_to_units_rounded_up (lit "  a" ++ NL :: lit "   b") eq_refl)
    as [_ [H _]].
  rewrite H. reflexivity.
Defined.

Section Canonical.

Import PreProcessor.

Lemma indentation_without_spaces lines :
  Forall (fun l => charIs SPACE (charAt l 0) = false) lines ->
  _getIndentationType lines = INDENTED_WITH_TABS.
Proof.
  induction 1 as [|l rest Hl Hrest IH]; cbn [_getIndentationType];
    [reflexivity|].
  rewrite Hl. now destruct (charIs TAB (charAt l 0)).
Qed.

Lemma dropWhile_In p (s : str) x : In x (dropWhile p s) -> In x s.
Proof.
  intros H. rewrite <- (takeWhile_dropWhile p s). apply in_or_app. now right.
Qed.

Lemma rewritten_head w l : charIs SPACE (charAt (rewritten w l) 0) = false.
Proof.
  unfold rewritten, leadingSpaces. rewrite skipn_takeWhile.
  destruct (ceilDiv _ w); [|reflexivity]. simpl.
  destruct (dropWhile isSpace l) as [|c r] eqn:E; [reflexivity|].
  apply dropWhile_head in E. exact E.
Qed.

Lemma rewritten_not_blank w l : blank l = false -> blank (rewritten w l) = false.
Proof.
  intros Hl. destruct (blank (rewritten w l)) eqn:E; [|reflexivity].
  apply blank_iff in E. unfold rewritten, leadingSpaces in E.
  rewrite skipn_takeWhile, forallb_app in E.
  apply andb_true_iff in E as [_ E].
  assert (H : forallb isWhiteSpace l = true).
  { rewrite <- (takeWhile_dropWhile isSpace l), forallb_app, E, andb_true_r.
    apply forallb_forall. intros x Hx.
    pose proof (takeWhile_all isSpace l) as Ht. rewrite Forall_forall in Ht.
    apply isSpace_white, Ht, Hx. }
  apply blank_iff in H. congruence.
Qed.

Lemma rewritten_no_NL w l : ~ In NL l -> ~ In NL (rewritten w l).
Proof.
  intros Hl H. unfold rewritten, leadingSpaces in H.
  rewrite skipn_takeWhile in H. apply in_app_or in H as [H|H].
  - apply repeat_spec in H. discriminate H.
  - apply Hl. eapply dropWhile_In, H.
Qed.

(** What the pre-processor leaves is canonical. *)
Lemma processLines_canonical lines :
  Forall (fun l => ~ In NL l) lines ->
  exists lines', processLines lines = Some lines' /\ canonical lines'.
Proof.
  intros HNL. unfold processLines.
  pose proof (removeEmptyLines_not_blank lines) as Hnb.
  assert (HNL' : Forall (fun l => ~ In NL l) (_removeEmptyLines lines)).
  { rewrite Forall_forall in *. intros l Hl. apply HNL.
    now apply filter_In in Hl as [Hl _]. }
  destruct (_getIndentationType (_removeEmptyLines lines)) eqn:Htype.
  - pose proof (spacesPerTab_positive _ Hnb Htype) as Hw.
    rewrite (replace_rewritten _ _ Hw Hnb). eexists. split; [reflexivity|].
    repeat split.
    + rewrite Forall_forall in *. intros l Hl.
      apply in_map_iff in Hl as [l0 [<- Hl0]].
      apply rewritten_not_blank, Hnb, Hl0.
    + rewrite Forall_forall in *. intros l Hl.
      apply in_map_iff in Hl as [l0 [<- Hl0]].
      apply rewritten_no_NL, HNL', Hl0.
    + apply indentation_without_spaces, Forall_forall. intros l Hl.
      apply in_map_iff in Hl as [l0 [<- _]]. apply rewritten_head.
  - eexists. split; [reflexivity|]. repeat split; assumption.
Qed.

(** A canonical text is left as it is. *)
Lemma process_canonical lines :
  canonical lines -> process (join [NL] lines) = Some (join [NL] lines).
Proof.
  intros (Hnb & HNL & Htype). unfold process, processLines, new.
  destruct lines as [|l rest]; [reflexivity|].
  rewrite split_join by (discriminate || assumption).
  rewrite (removeEmptyLines_id _ Hnb), Htype. reflexivity.
Qed.

End Canonical.

(** C6: the pre-processor returns a text for every input, and run on that
    text it returns the same text; the text is made of canonical lines (none
    blank, indentation classified as tabs), which is why the second run
    changes nothing. *)
Theorem C6_normalisation_idempotent (x : str) :
  exists y,
    PreProcessor.process x = Some y /\
    PreProcessor.process y = Some y /\
    exists lines, canonical lines /\ y = join [NL] lines.
Proof.
  destruct (processLines_canonical (PreProcessor.new x) (split_no_NL x))
    as (lines & Hp & Hc).
  exists (join [NL] lines). split; [|split].
  - unfold PreProcessor.process. now rewrite Hp.
  - now apply process_canonical.
  - now exists lines.
Qed.

(** ** Balanced output *)

Section Emission.

Import Compiler.

Lemma closes_open l stack evs :
  closes (l :: stack) evs -> closes stack (Open l :: evs).
Proof.
  intros H. inversion H as [|? ? inner rest Hin Hrest]; subst.
  inversion Hrest as [evs' Hn|top below inner' rest' Hin' Hrest']; subst.
  - apply closes_nil. now apply nested_cons.
  - replace (Open l :: inner ++ Close l :: inner' ++ Close top :: rest')
      with ((Open l :: inner ++ Close l :: inner') ++ Close top :: rest')
      by (simpl; now rewrite <- app_assoc).
    apply closes_cons; [|exact Hrest']. now apply nested_cons.
Qed.

Lemma closes_close top below evs :
  closes below evs -> closes (top :: below) (Close top :: evs).
Proof.
  intros H. apply (closes_cons top below [] evs); [constructor|exact H].
Qed.

Lemma closes_all stack : closes stack (map Close stack).
Proof.
  induction stack as [|top below IH]; simpl.
  - apply closes_nil. constructor.
  - now apply closes_close.
Qed.

Lemma closed_app a : forall b, closed (a ++ b) = closed a ++ closed b.
Proof.
  induction a as [|[x|x] a IH]; simpl; intros b; [reflexivity| |];
    now rewrite IH.
Qed.

Lemma opened_app a : forall b, opened (a ++ b) = opened a ++ opened b.
Proof.
  induction a as [|[x|x] a IH]; simpl; intros b; [reflexivity| |];
    now rewrite IH.
Qed.

Lemma nested_closed evs :
  nested evs -> Permutation (closed evs) (opened evs).
Proof.
  induction 1 as [|l inner rest _ IHi _ IHr]; simpl; [reflexivity|].
  rewrite closed_app, opened_app. simpl.
  rewrite <- Permutation_middle. constructor.
  now apply Permutation_app.
Qed.

(** Every line on the stack and every line opened is closed once. *)
Lemma closes_closed stack evs :
  closes stack evs -> Permutation (closed evs) (stack ++ opened evs).
Proof.
  induction 1 as [evs H|top below inner rest Hin _ IH]; simpl.
  - now apply nested_closed.
  - rewrite closed_app, opened_app. simpl.
    rewrite <- Permutation_middle. constructor.
    rewrite (nested_closed inner Hin), IH.
    rewrite !app_assoc. apply Permutation_app_tail, Permutation_app_comm.
Qed.

(** The first [while] loop pops a part of the stack and appends the closing
    texts of the lines it pops. *)
Lemma closeWhile_events stack lv compiled :
  exists popped,
    stack = popped ++ fst (closeWhile stack lv compiled) /\
    snd (closeWhile stack lv compiled) = compiled ++ text (map Close popped).
Proof.
  revert compiled. induction stack as [|top below IH]; intros compiled; simpl.
  - exists []. split; [reflexivity|]. unfold text; simpl. now rewrite app_nil_r.
  - destruct (lv <=? level top).
    + destruct (IH (compiled ++ _getClosingTag top)) as (popped & Hs & Hc).
      exists (top :: popped). split; [simpl; now f_equal|].
      rewrite Hc. unfold text; simpl. now rewrite app_assoc.
    + exists []. split; [reflexivity|]. unfold text; simpl.
      now rewrite app_nil_r.
Qed.

Lemma closeAll_events stack compiled :
  closeAll stack compiled = compiled ++ text (map Close stack).
Proof.
  revert compiled. induction stack as [|top below IH]; intros compiled; simpl.
  - unfold text; simpl. now rewrite app_nil_r.
  - rewrite IH. unfold text; simpl. now rewrite app_assoc.
Qed.

Lemma closes_popped popped : forall stack evs,
  closes stack evs -> closes (popped ++ stack) (map Close popped ++ evs).
Proof.
  induction popped as [|top below IH]; simpl; intros stack evs H; [exact H|].
  apply closes_close, IH, H.
Qed.

(** The loop of [compile]: from any stack it appends the text of events
    that open the remaining lines in order and close the stack. *)
Lemma compileLoop_events lines : forall stack compiled,
  exists evs,
    compileLoop lines stack compiled = compiled ++ text evs /\
    closes stack evs /\
    opened evs = lines.
Proof.
  induction lines as [|l rest IH]; intros stack compiled; simpl.
  - exists (map Close stack). split; [apply closeAll_events|].
    split; [apply closes_all|].
    induction stack as [|t b IHs]; simpl; [reflexivity|exact IHs].
  - destruct (closeWhile_events stack (level l) compiled) as (popped & Hs & Hc).
    destruct (closeWhile stack (level l) compiled) as [stack' compiled'].
    simpl in Hs, Hc.
    destruct (IH (l :: stack') (compiled' ++ _getOpeningTag l))
      as (evs & Hout & Hcl & Hop).
    exists (map Close popped ++ Open l :: evs). split; [|split].
    + rewrite Hout, Hc. unfold text. rewrite map_app, concat_app. simpl.
      now rewrite <- !app_assoc.
    + rewrite Hs. apply closes_popped, closes_open, Hcl.
    + assert (Ho : forall p r, opened (map Close p ++ r) = opened r).
      { induction p as [|t b IHp]; simpl; intros r; [reflexivity|apply IHp]. }
      rewrite Ho. simpl. now f_equal.
Qed.

(** The output of [compile] is the text of well nested events that open
    the lines in order and close each of them once. *)
Lemma compile_events lines :
  exists evs,
    compile lines = text evs /\ nested evs /\
    opened evs = lines /\ Permutation (closed evs) lines.
Proof.
  destruct (compileLoop_events lines [] []) as (evs & Hout & Hcl & Hop).
  exists evs. split; [exact Hout|].
  pose proof (closes_closed _ _ Hcl) as Hperm. simpl in Hperm.
  rewrite Hop in Hperm.
  inversion Hcl; subst. repeat split; assumption.
Qed.

End Emission.

(** ** Inputs without markup characters *)

Section Plain.

Import Compiler.

Lemma plain_firstn n : forall s, plain s -> plain (firstn n s).
Proof.
  unfold plain. induction n as [|n IH]; intros [|c r] H; simpl;
    try constructor; inversion H; subst; auto.
Qed.

Lemma plain_skipn n : forall s, plain s -> plain (skipn n s).
Proof.
  unfold plain. induction n as [|n IH]; intros [|c r] H; simpl;
    try assumption; inversion H; subst; auto.
Qed.

Lemma plain_dropWhile p s : plain s -> plain (dropWhile p s).
Proof.
  unfold plain. induction 1 as [|c r Hc Hr IH]; simpl; [constructor|].
  destruct (p c); [exact IH|now constructor].
Qed.

Lemma plain_substring s a b : plain s -> plain (substring s a b).
Proof. intros H. now apply plain_firstn, plain_skipn. Qed.

Lemma plain_trim s : plain s -> plain (trim s).
Proof.
  intros H. unfold trim.
  apply Forall_rev, plain_dropWhile, Forall_rev, plain_dropWhile, H.
Qed.

Lemma plain_tabs n : plain (tabs n).
Proof.
  unfold plain, tabs. apply Forall_forall. intros c Hc.
  apply repeat_spec in Hc. now subst c.
Qed.

Lemma plain_split s : plain s -> Forall plain (split s).
Proof.
  unfold plain. induction 1 as [|c r Hc Hr IH]; simpl.
  - repeat constructor.
  - destruct (Ascii.eqb c NL); [constructor; [constructor|exact IH]|].
    destruct (split r) as [|l ls].
    + repeat constructor. exact Hc.
    + inversion IH; subst. constructor; [now constructor|assumption].
Qed.

Lemma plain_join sep lines :
  plain sep -> Forall plain lines -> plain (join sep lines).
Proof.
  intros Hsep. induction 1 as [|l rest Hl Hrest IH]; [constructor|].
  destruct rest as [|l' rest']; [exact Hl|].
  change (join sep (l :: l' :: rest')) with (l ++ sep ++ join sep (l' :: rest')).
  apply Forall_app. split; [exact Hl|]. apply Forall_app. now split.
Qed.

Lemma plain_put o k v :
  plainObject o -> plain k -> plain v -> plainObject (JsObject.put o k v).
Proof.
  intros Ho Hk Hv. induction Ho as [|[k' v'] r [Hk' Hv'] Hr IH]; simpl.
  - repeat constructor; assumption.
  - destruct (streq k' k); constructor; simpl in *; auto.
Qed.

Lemma plain_set o k v :
  plainObject o -> plain k -> plain v -> plainObject (JsObject.set o k v).
Proof.
  intros Ho Hk Hv. unfold JsObject.set.
  destruct (streq k _); [exact Ho|now apply plain_put].
Qed.

Lemma plain_parseIdFrom l s : forall i x,
  plain l -> parseIdFrom l s i = Some x -> plain x.
Proof.
  induction s as [|c r IH]; simpl; intros i x Hl H; [discriminate|].
  destruct (Ascii.eqb c "#"); [|eapply IH; eassumption].
  destruct (findFrom isIdEnd r (i + 1)); [|eapply IH; eassumption].
  injection H as <-. now apply plain_substring.
Qed.

Lemma plain_classesFrom l s : forall i b acc,
  plain l -> Forall plain acc -> Forall plain (classesFrom l s i b acc).
Proof.
  induction s as [|c r IH]; simpl; intros i b acc Hl Hacc; [exact Hacc|].
  destruct (Ascii.eqb c "("); [now apply IH|].
  destruct (Ascii.eqb c ")"); [now apply IH|].
  destruct (negb b && Ascii.eqb c "."); [|now apply IH].
  destruct (findFrom isClassEnd r (i + 1)); [|now apply IH].
  apply IH; [exact Hl|]. apply Forall_app. split; [exact Hacc|].
  repeat constructor. now apply plain_substring.
Qed.

Lemma plain_parseProps l : plain l -> plainObject (_parseProps l).
Proof.
  intros Hl. unfold _parseProps.
  destruct (parensFrom l 0 false 0) as [[a b]|]; [|constructor].
  apply (propsLoop_invariant plainObject); [|constructor].
  intros o i j i' j' Ho.
  apply plain_set; [exact Ho| |]; now apply plain_substring, plain_trim,
    plain_substring.
Qed.

Lemma plain_fold_set es : forall o,
  plainObject es -> plainObject o ->
  plainObject (fold_left (fun o e => JsObject.set o (fst e) (snd e)) es o).
Proof.
  induction es as [|[k v] r IH]; simpl; intros o Hes Ho; [exact Ho|].
  inversion Hes as [|? ? [Hk Hv] Hr]; subst.
  apply IH; [exact Hr|]. now apply plain_set.
Qed.

Lemma plain_setIf c o k v :
  plainObject o -> plain k -> (forall x, v = Some x -> plain x) ->
  plainObject (setIf c o k v).
Proof.
  intros Ho Hk Hv. unfold setIf. destruct v as [x|]; [|exact Ho].
  destruct c; [|exact Ho]. apply plain_set; auto.
Qed.

Lemma plain_parseLine l : plainLine l -> plainLine (parseLine l).
Proof.
  intros (Hline & _ & Hprops). unfold plainLine, parseLine. simpl.
  split; [exact Hline|]. split.
  - unfold _parseTag. destruct (findFrom isTagEnd (line l) 0); simpl.
    + now apply plain_substring.
    + repeat constructor.
  - apply plain_fold_set.
    + eapply Permutation_Forall; [symmetry; apply entries_perm|].
      now apply plain_parseProps.
    + apply plain_setIf; [apply plain_setIf| |].
      * exact Hprops.
      * repeat constructor.
      * intros x Hx. eapply plain_parseIdFrom; eassumption.
      * repeat constructor.
      * unfold _parseClasses. intros x.
        destruct (0 <? _); [|discriminate]. intros Hx. injection Hx as <-.
        apply plain_join; [repeat constructor|].
        apply plain_classesFrom; [exact Hline|constructor].
Qed.

Lemma plain_expand lines :
  Forall plainLine lines ->
  Forall plainLine (_expandSingleLineStatements lines).
Proof.
  apply (expand_ind (fun lines out =>
    Forall plainLine lines -> Forall plainLine out)).
  - constructor.
  - intros l parent child rest Hs IH HF.
    inversion HF as [|? ? (Hline & Htag & Hprops) Hrest]; subst.
    apply splitLine_fields in Hs
      as (j & _ & Hpl & _ & Hpp & Hpt & Hcl & _ & Hcp & Hct).
    constructor.
    + unfold plainLine. rewrite Hpl, Hpp, Hpt.
      split; [now apply plain_substring|now split].
    + apply IH. constructor; [|exact Hrest].
      unfold plainLine. rewrite Hcl, Hcp, Hct.
      split; [now apply plain_trim, plain_skipn|].
      split; repeat constructor.
  - intros l rest _ IH HF. inversion HF; subst.
    constructor; [assumption|]. now apply IH.
Qed.

(** The lines made of a text without markup characters have none in their
    text, tag and attributes. *)
Lemma plain_new content : plain content -> Forall plainLine (new content).
Proof.
  intros H. unfold new, _parseLines.
  assert (HF : Forall plainLine
                 (_expandSingleLineStatements (_getLineObjects content))).
  { apply plain_expand. unfold _getLineObjects.
    apply Forall_forall. intros l Hl. apply in_map_iff in Hl as [x [<- Hx]].
    pose proof (plain_split content H) as Hs. rewrite Forall_forall in Hs.
    unfold plainLine, lineObject. simpl.
    split; [apply plain_trim, plain_skipn, Hs, Hx|].
    split; repeat constructor. }
  apply Forall_forall. intros l Hl. apply in_map_iff in Hl as [x [<- Hx]].
  rewrite Forall_forall in HF. apply plain_parseLine, HF, Hx.
Qed.

End Plain.

Section Counting.

Import Compiler.

Lemma plain_no_tag a b :
  plain a -> openTags (a ++ b) = openTags b /\ closeTags (a ++ b) = closeTags b.
Proof.
  induction 1 as [|c r Hc Hr [IHo IHc]]; simpl; [tauto|].
  unfold plainChar in Hc. apply andb_true_iff in Hc as [Hc _].
  apply negb_true_iff in Hc. rewrite Hc, IHo, IHc. simpl. tauto.
Qed.

Lemma plain_not_slash a b c :
  plain a -> plainChar c = true -> startsWith (lit "/") (a ++ c :: b) = false.
Proof.
  intros Ha Hc.
  assert (H : forall d, plainChar d = true -> Ascii.eqb "/" d = false).
  { intros d Hd. unfold plainChar in Hd.
    apply andb_true_iff in Hd as [_ Hd]. apply negb_true_iff in Hd.
    now rewrite Ascii.eqb_sym. }
  destruct Ha as [|d r Hd Hr];
    cbn [app lit list_ascii_of_string startsWith]; now rewrite H.
Qed.

Lemma attributes_fold es : forall acc,
  fold_left (fun t e => t ++ attribute e) es acc
  = acc ++ concat (map attribute es).
Proof.
  induction es as [|e r IH]; cbn [fold_left map concat]; intros acc;
    [now rewrite app_nil_r|].
  now rewrite IH, app_assoc.
Qed.

(** The opening text of a line that has a tag. *)
Lemma opening_text l :
  tagged l = true ->
  _getOpeningTag l
  = tabs (level l) ++ "<"%char :: tagBody l ++ [">"%char; NL].
Proof.
  unfold tagged, _getOpeningTag, tagBody. intros H. apply negb_true_iff in H.
  rewrite H, attributes_fold. unfold lit. cbn [list_ascii_of_string].
  rewrite <- !app_assoc. reflexivity.
Qed.

Lemma closing_text l :
  tagged l = true ->
  _getClosingTag l
  = tabs (level l) ++ "<"%char :: "/"%char :: tagText (tag l) ++ [">"%char; NL].
Proof.
  unfold tagged, _getClosingTag. intros H. apply negb_true_iff in H.
  rewrite H. reflexivity.
Qed.

Lemma plain_attributes o :
  plainObject o -> plain (concat (map attribute (JsObject.entries o))).
Proof.
  intros Ho.
  assert (He : plainObject (JsObject.entries o)).
  { eapply Permutation_Forall; [symmetry; apply entries_perm|exact Ho]. }
  induction He as [|[k v] r [Hk Hv] Hr IH]; cbn [map concat]; [constructor|].
  apply Forall_app. split; [|exact IH]. unfold attribute. cbn [fst snd] in *.
  repeat (apply Forall_app; split); try assumption; repeat constructor.
Qed.

Lemma open_tag_counts body rest :
  plain body ->
  openTags ("<"%char :: body ++ [">"%char; NL] ++ rest) = S (openTags rest) /\
  closeTags ("<"%char :: body ++ [">"%char; NL] ++ rest) = closeTags rest.
Proof.
  intros Hb. cbn [openTags closeTags].
  rewrite Ascii.eqb_refl.
  pose proof (plain_not_slash body (NL :: rest) ">"%char Hb eq_refl) as Hs.
  change (">"%char :: NL :: rest) with ([">"%char; NL] ++ rest) in Hs.
  rewrite Hs, app_assoc.
  destruct (plain_no_tag (body ++ [">"%char; NL]) rest) as [-> ->].
  - apply Forall_app. split; [exact Hb|repeat constructor].
  - tauto.
Qed.

Lemma close_tag_counts body rest :
  plain body ->
  openTags ("<"%char :: "/"%char :: body ++ [">"%char; NL] ++ rest)
  = openTags rest /\
  closeTags ("<"%char :: "/"%char :: body ++ [">"%char; NL] ++ rest)
  = S (closeTags rest).
Proof.
  intros Hb.
  assert (Ho : forall t, openTags ("<"%char :: "/"%char :: t) = openTags t)
    by reflexivity.
  assert (Hc : forall t,
             closeTags ("<"%char :: "/"%char :: t) = S (closeTags t))
    by reflexivity.
  rewrite Ho, Hc, app_assoc.
  destruct (plain_no_tag (body ++ [">"%char; NL]) rest) as [-> ->].
  - apply Forall_app. split; [exact Hb|repeat constructor].
  - tauto.
Qed.

(** Over a line without markup characters the opening text holds one
    opening tag when the line is tagged, and no tag otherwise. *)
Lemma opening_counts l rest :
  plainLine l ->
  openTags (_getOpeningTag l ++ rest)
  = (if tagged l then 1 else 0) + openTags rest /\
  closeTags (_getOpeningTag l ++ rest) = closeTags rest.
Proof.
  intros (Hline & Htag & Hprops).
  destruct (tagged l) eqn:Ht.
  - rewrite (opening_text l Ht), <- app_assoc.
    destruct (plain_no_tag (tabs (level l))
      (("<"%char :: tagBody l ++ [">"%char; NL]) ++ rest) (plain_tabs _))
      as [-> ->].
    cbn [app]. rewrite <- app_assoc. apply open_tag_counts.
    apply Forall_app. split; [exact Htag|now apply plain_attributes].
  - unfold tagged in Ht. apply negb_false_iff in Ht.
    unfold _getOpeningTag. rewrite Ht, <- !app_assoc.
    destruct (plain_no_tag (tabs (level l)) (line l ++ [NL] ++ rest)
                (plain_tabs _)) as [-> ->].
    destruct (plain_no_tag (line l) ([NL] ++ rest) Hline) as [-> ->].
    simpl. tauto.
Qed.

(** The closing text holds one closing tag when the line is tagged. *)
Lemma closing_counts l rest :
  plainLine l ->
  openTags (_getClosingTag l ++ rest) = openTags rest /\
  closeTags (_getClosingTag l ++ rest)
  = (if tagged l then 1 else 0) + closeTags rest.
Proof.
  intros (Hline & Htag & Hprops).
  destruct (tagged l) eqn:Ht.
  - rewrite (closing_text l Ht), <- app_assoc.
    destruct (plain_no_tag (tabs (level l))
      (("<"%char :: "/"%char :: tagText (tag l) ++ [">"%char; NL]) ++ rest)
      (plain_tabs _)) as [-> ->].
    cbn [app]. rewrite <- app_assoc. now apply close_tag_counts.
  - unfold tagged in Ht. apply negb_false_iff in Ht.
    unfold _getClosingTag. rewrite Ht. simpl. tauto.
Qed.

(** The tags in the text of events over lines without markup characters:
    one opening tag for each tagged line opened, one closing tag for each
    tagged line closed. *)
Lemma text_counts evs :
  Forall plainLine (opened evs) -> Forall plainLine (closed evs) ->
  openTags (text evs) = taggedCount (opened evs) /\
  closeTags (text evs) = taggedCount (closed evs).
Proof.
  unfold text, taggedCount.
  induction evs as [|[l|l] r IH]; simpl; intros Ho Hc; [tauto| |].
  - inversion Ho as [|? ? Hl Hr]; subst.
    destruct (IH Hr Hc) as [IHo IHc].
    destruct (opening_counts l (concat (map render r)) Hl) as [-> ->].
    rewrite IHo, IHc. tauto.
  - inversion Hc as [|? ? Hl Hr]; subst.
    destruct (IH Ho Hr) as [IHo IHc].
    destruct (closing_counts l (concat (map render r)) Hl) as [-> ->].
    rewrite IHo, IHc. tauto.
Qed.

End Counting.

(** C7, as the specification states it, fails: the line [<b>] has none of
    the characters that end a tag, it is copied to the output as it is, and
    the output has one opening tag and no closing tag. *)
Lemma C7_raw_markup_unbalanced :
  run (lit "<b>") = Some (lit "<b>" ++ [NL]) /\
  openTags (compileTemplate (lit "<b>")) = 1 /\
  closeTags (compileTemplate (lit "<b>")) = 0.
Proof. repeat split. Qed.

(** C7, amended: for every input the output is the text of well nested
    events, which open the lines in their order and close each line once,
    those still on the stack at the end included; and when the input holds
    neither [<] nor [/], the output text has as many opening tags as
    closing tags, one of each for every tagged line. *)
Theorem C7_balanced_output (content : str) :
  exists evs,
    compileTemplate content = text evs /\
    nested evs /\
    opened evs = Compiler.new content /\
    Permutation (closed evs) (Compiler.new content) /\
    (forallb plainChar content = true ->
     openTags (compileTemplate content) = taggedCount (Compiler.new content) /\
     closeTags (compileTemplate content) = taggedCount (Compiler.new content)).
Proof.
  destruct (compile_events (Compiler.new content))
    as (evs & Hout & Hn & Ho & Hc).
  exists evs.
  split; [exact Hout|]. split; [exact Hn|]. split; [exact Ho|].
  split; [exact Hc|]. intros Hplain.
  assert (HF : Forall plainLine (Compiler.new content)).
  { apply plain_new, Forall_forall. intros c Hc'.
    rewrite forallb_forall in Hplain. now apply Hplain. }
  assert (HFc : Forall plainLine (closed evs)).
  { eapply Permutation_Forall; [symmetry; exact Hc|exact HF]. }
  unfold compileTemplate. rewrite Hout.
  destruct (text_counts evs) as [Hto Htc]; [now rewrite Ho|exact HFc|].
  split.
  - now rewrite Hto, Ho.
  - rewrite Htc. unfold taggedCount.
    apply Permutation_list_sum, Permutation_map, Hc.
Qed.

Lemma C7_balanced_output_witness :
  forallb plainChar (lit "ul.menu:" ++ NL :: TAB :: lit "li: Hello") = true /\
  openTags (compileTemplate (lit "ul.menu:" ++ NL :: TAB :: lit "li: Hello")) = 2 /\
  closeTags (compileTemplate (lit "ul.menu:" ++ NL :: TAB :: lit "li: Hello")) = 2.
Proof.
  split; [reflexivity|].
  destruct (C7_balanced_output (lit "ul.menu:" ++ NL :: TAB :: lit "li: Hello"))
    as (evs & _ & _ & _ & _ & H).
  destruct (H eq_refl) as [Ho Hc]. rewrite Ho, Hc. split; reflexivity.
Defined.


(** * Further properties *)

(** ** The stack of [compile] *)

Section Blocks.

Import Compiler.

Lemma closeWhile_text stack lv : forall compiled,
  closeWhile stack lv compiled
  = (fst (closeWhile stack lv []), compiled ++ snd (closeWhile stack lv [])).
Proof.
  induction stack as [|top below IH]; intros compiled; simpl.
  - now rewrite app_nil_r.
  - destruct (lv <=? level top); simpl; [|now rewrite app_nil_r].
    rewrite (IH (compiled ++ _getClosingTag top)), (IH (_getClosingTag top)).
    simpl. now rewrite app_assoc.
Qed.

Lemma forLoop_text lines : forall stack compiled,
  forLoop lines stack compiled
  = (fst (forLoop lines stack []), compiled ++ snd (forLoop lines stack [])).
Proof.
  induction lines as [|l rest IH]; intros stack compiled; simpl.
  - now rewrite app_nil_r.
  - rewrite (closeWhile_text stack (level l) compiled).
    destruct (closeWhile stack (level l) []) as [stack' text'] eqn:E. simpl.
    rewrite (IH _ ((compiled ++ text') ++ _getOpeningTag l)),
      (IH _ (text' ++ _getOpeningTag l)).
    simpl. now rewrite <- !app_assoc.
Qed.

Lemma closeAll_closings stack : forall compiled,
  closeAll stack compiled = compiled ++ closings stack.
Proof.
  unfold closings.
  induction stack as [|top below IH]; intros compiled; simpl.
  - now rewrite app_nil_r.
  - now rewrite IH, app_assoc.
Qed.

(** [compile] is its [for] loop followed by the closing of what is left on
    the stack. *)
Lemma compileLoop_forLoop lines : forall stack compiled,
  compileLoop lines stack compiled
  = snd (forLoop lines stack compiled)
    ++ closings (fst (forLoop lines stack compiled)).
Proof.
  induction lines as [|l rest IH]; intros stack compiled; simpl.
  - apply closeAll_closings.
  - destruct (closeWhile stack (level l) compiled) as [stack' compiled'].
    apply IH.
Qed.

(** A line deeper than the top of a part of the stack leaves that part
    alone. *)
Lemma closeWhile_frame st b below lv compiled :
  level b < lv ->
  closeWhile (st ++ b :: below) lv compiled
  = (fst (closeWhile st lv compiled) ++ b :: below,
     snd (closeWhile st lv compiled)).
Proof.
  intros Hb. revert compiled.
  induction st as [|top st' IH]; intros compiled; simpl.
  - destruct (lv <=? level b) eqn:E; [|reflexivity].
    apply Nat.leb_le in E. lia.
  - destruct (lv <=? level top); [apply IH|reflexivity].
Qed.

Lemma forLoop_frame lines b below : forall st compiled,
  Forall (fun x => level b < level x) lines ->
  forLoop lines (st ++ b :: below) compiled
  = (fst (forLoop lines st compiled) ++ b :: below,
     snd (forLoop lines st compiled)).
Proof.
  induction lines as [|l rest IH]; intros st compiled HF; simpl;
    [reflexivity|].
  inversion HF as [|? ? Hl Hrest]; subst.
  rewrite (closeWhile_frame st b below (level l) compiled Hl).
  destruct (closeWhile st (level l) compiled) as [st' compiled']. simpl.
  apply (IH (l :: st') _ Hrest).
Qed.

(** A line that is not deeper than any line of the stack closes them
    all. *)
Lemma closeWhile_all st lv : forall compiled,
  Forall (fun x => lv <= level x) st ->
  closeWhile st lv compiled = ([], compiled ++ closings st).
Proof.
  unfold closings.
  induction st as [|top below IH]; intros compiled HF; simpl.
  - now rewrite app_nil_r.
  - inversion HF as [|? ? Ht Hb]; subst.
    apply Nat.leb_le in Ht. rewrite Ht, (IH _ Hb). now rewrite app_assoc.
Qed.

Lemma closeWhile_stack (P : Line -> Prop) st lv compiled :
  Forall P st -> Forall P (fst (closeWhile st lv compiled)).
Proof.
  revert compiled. induction st as [|top below IH]; intros compiled HF; simpl;
    [constructor|].
  inversion HF; subst.
  destruct (lv <=? level top); [now apply IH|exact HF].
Qed.

(** The stack holds lines of the input only. *)
Lemma forLoop_stack (P : Line -> Prop) lines : forall st compiled,
  Forall P lines -> Forall P st ->
  Forall P (fst (forLoop lines st compiled)).
Proof.
  induction lines as [|l rest IH]; intros st compiled Hl Hs; simpl;
    [exact Hs|].
  inversion Hl; subst.
  pose proof (closeWhile_stack P st (level l) compiled Hs) as Hc.
  destruct (closeWhile st (level l) compiled) as [st' compiled']. simpl in Hc.
  apply IH; [assumption|now constructor].
Qed.

Lemma forLoop_app a : forall b st compiled,
  forLoop (a ++ b) st compiled
  = forLoop b (fst (forLoop a st compiled)) (snd (forLoop a st compiled)).
Proof.
  induction a as [|l rest IH]; intros b st compiled; simpl; [reflexivity|].
  destruct (closeWhile st (level l) compiled) as [st' compiled']. apply IH.
Qed.

Lemma inside_after lv lines : inside lv lines ++ after lv lines = lines.
Proof.
  induction lines as [|x r IH]; simpl; [reflexivity|].
  destruct (lv <? level x); simpl; [now rewrite IH|reflexivity].
Qed.

Lemma inside_deeper lv lines :
  Forall (fun x => lv < level x) (inside lv lines).
Proof.
  induction lines as [|x r IH]; simpl; [constructor|].
  destruct (lv <? level x) eqn:E; [|constructor].
  apply Nat.ltb_lt in E. now constructor.
Qed.

Lemma after_head lv lines :
  match after lv lines with
  | [] => True
  | x :: _ => level x <= lv
  end.
Proof.
  induction lines as [|x r IH]; simpl; [exact I|].
  destruct (lv <? level x) eqn:E; [exact IH|].
  apply Nat.ltb_ge in E. exact E.
Qed.

Lemma compile_forLoop lines :
  compile lines
  = snd (forLoop lines [] []) ++ closings (fst (forLoop lines [] [])).
Proof. apply compileLoop_forLoop. Qed.

End Blocks.

(** X1: the output for a line followed by other lines is the line's opening
    text, the output for the run of deeper lines that follow it, the line's
    closing text, and the output for the lines from the first one that is
    not deeper. *)
Theorem X1_compile_block_structure (l : Compiler.Line)
  (rest : list Compiler.Line) :
  Compiler.compile (l :: rest)
  = Compiler._getOpeningTag l
    ++ Compiler.compile (inside (Compiler.level l) rest)
    ++ Compiler._getClosingTag l
    ++ Compiler.compile (after (Compiler.level l) rest).
Proof.
  set (lv := Compiler.level l).
  rewrite !compile_forLoop.
  rewrite <- (inside_after lv rest) at 1 2.
  change (l :: inside lv rest ++ after lv rest)
    with ([l] ++ inside lv rest ++ after lv rest).
  rewrite !forLoop_app. cbn [forLoop Compiler.closeWhile fst snd app].
  pose proof (forLoop_frame (inside lv rest) l [] []
                (Compiler._getOpeningTag l) (inside_deeper lv rest)) as Hin.
  cbn [app] in Hin. rewrite Hin. cbn [fst snd].
  rewrite (forLoop_text (inside lv rest) [] (Compiler._getOpeningTag l)).
  cbn [fst snd].
  set (stIn := fst (forLoop (inside lv rest) [] [])).
  set (outIn := snd (forLoop (inside lv rest) [] [])).
  assert (Hdeep : Forall (fun x => lv < Compiler.level x) stIn).
  { apply forLoop_stack; [apply inside_deeper|constructor]. }
  pose proof (after_head lv rest) as Hhead.
  destruct (after lv rest) as [|o os] eqn:Eaft.
  - cbn [forLoop fst snd]. unfold closings.
    rewrite map_app, concat_app. cbn [map concat].
    rewrite !app_nil_r, <- !app_assoc. reflexivity.
  - cbn [forLoop].
    rewrite (closeWhile_text (stIn ++ [l]) (Compiler.level o)
               (Compiler._getOpeningTag l ++ outIn)).
    assert (Hall : Compiler.closeWhile (stIn ++ [l]) (Compiler.level o) []
                   = ([], closings (stIn ++ [l]))).
    { rewrite closeWhile_all; [reflexivity|].
      apply Forall_app. split.
      - eapply Forall_impl; [|exact Hdeep]. intros x Hx. simpl in Hx. lia.
      - repeat constructor. exact Hhead. }
    rewrite Hall. cbn [fst snd Compiler.closeWhile].
    rewrite (forLoop_text os [o]
               (((Compiler._getOpeningTag l ++ outIn) ++ closings (stIn ++ [l]))
                ++ Compiler._getOpeningTag o)).
    rewrite (forLoop_text os [o] ([] ++ Compiler._getOpeningTag o)).
    cbn [fst snd app]. unfold closings.
    rewrite map_app, concat_app. cbn [map concat].
    rewrite !app_nil_r, <- !app_assoc. reflexivity.
Qed.

Section Stack.

Import Compiler.

Lemma closeWhile_descending st lv : forall compiled,
  descending st ->
  descending (fst (closeWhile st lv compiled)) /\
  Forall (fun x => level x < lv) (fst (closeWhile st lv compiled)).
Proof.
  assert (Hall : forall st x, descending (x :: st) ->
                   Forall (fun y => level y < level x) st).
  { induction st0 as [|y r IH]; intros x Hd; [constructor|].
    destruct Hd as [Hyx Hd]. constructor; [exact Hyx|].
    eapply Forall_impl; [|apply (IH y Hd)]. intros z Hz. simpl in Hz. lia. }
  induction st as [|top below IH]; intros compiled Hd; simpl.
  - split; constructor.
  - destruct (lv <=? level top) eqn:E.
    + apply IH. apply Hd.
    + apply Nat.leb_gt in E. split; [exact Hd|].
      constructor; [exact E|].
      eapply Forall_impl; [|apply (Hall below top Hd)].
      intros z Hz. simpl in Hz. lia.
Qed.

Lemma forLoop_descending lines : forall st compiled,
  descending st -> descending (fst (forLoop lines st compiled)).
Proof.
  induction lines as [|l rest IH]; intros st compiled Hd; simpl; [exact Hd|].
  destruct (closeWhile_descending st (level l) compiled Hd) as [Hd' Hlt].
  destruct (closeWhile st (level l) compiled) as [st' compiled'].
  simpl in Hd', Hlt. apply IH. split; [|exact Hd'].
  destruct st' as [|next r]; [exact I|]. now inversion Hlt.
Qed.

Lemma descending_below top below :
  descending (top :: below) ->
  Forall (fun x => level x < level top) below /\ length below <= level top.
Proof.
  revert top. induction below as [|next r IH]; intros top Hd.
  - split; [constructor|simpl; lia].
  - destruct Hd as [Hlt Hd]. destruct (IH next Hd) as [HF Hlen]. split.
    + constructor; [exact Hlt|].
      eapply Forall_impl; [|exact HF]. intros z Hz. simpl in Hz. lia.
    + simpl. lia.
Qed.

End Stack.

(** X2: when the loop of [compile] has pushed a line, the lines below it on
    the stack have levels that fall strictly towards the bottom and are all
    smaller than the line's own, so a line of level [k] is written inside
    at most [k] open lines. *)
Theorem X2_stack_levels_descend (lines : list Compiler.Line)
  (l : Compiler.Line) :
  exists below,
    fst (forLoop (lines ++ [l]) [] []) = l :: below /\
    descending (l :: below) /\
    Forall (fun x => Compiler.level x < Compiler.level l) below /\
    length below <= Compiler.level l.
Proof.
  rewrite forLoop_app. cbn [forLoop].
  pose proof (forLoop_descending lines [] [] I) as Hd.
  destruct (closeWhile_descending (fst (forLoop lines [] []))
              (Compiler.level l) (snd (forLoop lines [] [])) Hd) as [Hd' Hlt].
  destruct (Compiler.closeWhile _ _ _) as [st' compiled']. simpl in *.
  exists st'. split; [reflexivity|].
  assert (Hdl : descending (l :: st')).
  { split; [|exact Hd']. destruct st' as [|next r]; [exact I|].
    now inversion Hlt. }
  split; [exact Hdl|]. now apply descending_below.
Qed.

(** ** Inline statements, further *)

Section Expansion.

Import Compiler.

Lemma colonAt_from s : forall i b j, colonAt s i b = Some j -> i <= j.
Proof.
  induction s as [|c r IH]; simpl; intros i b j H; [discriminate|].
  destruct (Ascii.eqb c "("); [apply IH in H; lia|].
  destruct (Ascii.eqb c ")"); [apply IH in H; lia|].
  destruct (negb b && Ascii.eqb c ":"); [|apply IH in H; lia].
  injection H as <-. lia.
Qed.

(** The scan finds the same colon in the text cut after it. *)
Lemma colonAt_prefix s : forall i b j,
  colonAt s i b = Some j -> colonAt (firstn (S (j - i)) s) i b = Some j.
Proof.
  induction s as [|c r IH]; intros i b j H; [discriminate|].
  cbn [firstn colonAt] in *.
  destruct (Ascii.eqb c "(").
  { pose proof (colonAt_from _ _ _ _ H). apply IH in H.
    replace (j - i) with (S (j - S i)) by lia. exact H. }
  destruct (Ascii.eqb c ")").
  { pose proof (colonAt_from _ _ _ _ H). apply IH in H.
    replace (j - i) with (S (j - S i)) by lia. exact H. }
  destruct (negb b && Ascii.eqb c ":"); [exact H|].
  pose proof (colonAt_from _ _ _ _ H). apply IH in H.
  replace (j - i) with (S (j - S i)) by lia. exact H.
Qed.

Lemma substring_prefix (s : str) n : substring s 0 n = firstn n s.
Proof. unfold substring. simpl. now rewrite Nat.sub_0_r. Qed.

(** A line that has been cut at its colon is not cut again. *)
Lemma splitLine_parent l parent child :
  splitLine l = Some (parent, child) -> splitLine parent = None.
Proof.
  intros H. apply splitLine_fields in H as (j & Hj & Hline & _).
  unfold splitLine. rewrite Hline, substring_prefix.
  apply colonAt_prefix in Hj. rewrite Nat.sub_0_r in Hj.
  replace (j + 1) with (S j) by lia. rewrite Hj.
  unfold substringFrom.
  rewrite skipn_all2; [reflexivity|].
  rewrite length_firstn. lia.
Qed.

Lemma expand_settled lines :
  Forall (fun l => splitLine l = None) (_expandSingleLineStatements lines).
Proof.
  apply (expand_ind (fun _ out => Forall (fun l => splitLine l = None) out)).
  - constructor.
  - intros l parent child rest Hs IH. constructor; [|exact IH].
    eapply splitLine_parent, Hs.
  - intros l rest Hs IH. now constructor.
Qed.

Lemma expand_fixed lines :
  Forall (fun l => splitLine l = None) lines ->
  _expandSingleLineStatements lines = lines.
Proof.
  induction 1 as [|l rest Hl Hrest IH].
  - apply _expandSingleLineStatements_equation_1.
  - rewrite (expand_keep l rest Hl). now f_equal.
Qed.

End Expansion.

(** X3: the expansion settles.  After it no line has text behind a colon
    outside parentheses, and expanding again changes nothing. *)
Theorem X3_expansion_idempotent (lines : list Compiler.Line) :
  Forall (fun l => Compiler.splitLine l = None)
    (Compiler._expandSingleLineStatements lines) /\
  Compiler._expandSingleLineStatements
    (Compiler._expandSingleLineStatements lines)
  = Compiler._expandSingleLineStatements lines.
Proof.
  split; [apply expand_settled|]. apply expand_fixed, expand_settled.
Qed.

(** X4: lines are expanded one by one: the expansion of two lists of lines
    put together is the expansion of the first followed by the expansion of
    the second. *)
Theorem X4_expansion_of_concatenation (a b : list Compiler.Line) :
  Compiler._expandSingleLineStatements (a ++ b)
  = Compiler._expandSingleLineStatements a
    ++ Compiler._expandSingleLineStatements b.
Proof.
  revert b.
  apply (expand_ind (fun a out => forall b,
    Compiler._expandSingleLineStatements (a ++ b)
    = out ++ Compiler._expandSingleLineStatements b)).
  - intros b. reflexivity.
  - intros l parent child rest Hs IH b. simpl.
    rewrite (expand_split _ _ _ _ Hs). f_equal. apply (IH b).
  - intros l rest Hs IH b. simpl.
    rewrite (expand_keep _ _ Hs). f_equal. apply IH.
Qed.


(** X5: the colons between a [(] and the next [)] are no places to split
    at.  Behind a text without parentheses and colons, a parenthesised group
    is stepped over by the scan, which goes on behind its [)]; a line that
    ends with the group is left as it is by the expansion. *)
Theorem X5_group_colons_do_not_split (pre inner post : str) :
  Forall (fun c => isParen c || Ascii.eqb c ":" = false) pre ->
  Forall (fun c => Ascii.eqb c ")" = false) inner ->
  Compiler.colonAt (pre ++ "("%char :: inner ++ ")"%char :: post) 0 false
  = Compiler.colonAt post (length pre + length inner + 2) false /\
  forall lv,
    Compiler._expandSingleLineStatements
      [Compiler.newLine (pre ++ "("%char :: inner ++ [")"%char]) lv]
    = [Compiler.newLine (pre ++ "("%char :: inner ++ [")"%char]) lv].
Proof.
  intros Hpre Hinner.
  assert (Hin : forall post' i,
            Compiler.colonAt (inner ++ ")"%char :: post') i true
            = Compiler.colonAt post' (i + length inner + 1) false).
  { clear Hpre. intros post'.
    induction Hinner as [|c r Hc Hr IH]; intros i.
    - simpl. f_equal. lia.
    - cbn [app Compiler.colonAt length]. rewrite Hc.
      destruct (Ascii.eqb c "("); simpl; rewrite IH; f_equal; lia. }
  assert (Hgen : forall post' i,
            Compiler.colonAt (pre ++ "("%char :: inner ++ ")"%char :: post') i false
            = Compiler.colonAt post' (i + length pre + length inner + 2) false).
  { intros post'.
    induction Hpre as [|c r Hc Hr IH]; intros i.
    - cbn [app Compiler.colonAt length]. change (Ascii.eqb "(" "(") with true.
      cbn iota. rewrite Hin. f_equal. lia.
    - cbn [app Compiler.colonAt length].
      unfold isParen in Hc.
      destruct (Ascii.eqb c "("); [discriminate|].
      destruct (Ascii.eqb c ")"); [discriminate|].
      simpl in Hc. rewrite Hc. simpl. rewrite IH. f_equal. lia. }
  split.
  - apply Hgen.
  - intros lv. apply expand_keep. unfold Compiler.splitLine.
    cbn [Compiler.line Compiler.newLine].
    rewrite (Hgen [] 0). reflexivity.
Qed.

Lemma X5_group_colons_do_not_split_witness :
  Compiler.colonAt (lit "a(href:x y:z): b") 0 false
  = Compiler.colonAt (lit ": b") 13 false /\
  Compiler._expandSingleLineStatements [Compiler.newLine (lit "a(href:x y:z)") 2]
  = [Compiler.newLine (lit "a(href:x y:z)") 2].
Proof.
  destruct (X5_group_colons_do_not_split (lit "a") (lit "href:x y:z") (lit ": b"))
    as [Hscan Hkeep]; [repeat constructor|repeat constructor|].
  split; [exact Hscan|exact (Hkeep 2)].
Defined.

(** ** Parsing a line, further *)

Section Scanning.

Import Compiler.

Lemma findFrom_none p (s : str) : forall i,
  Forall (fun c => p c = false) s -> findFrom p s i = None.
Proof.
  induction s as [|c r IH]; intros i H; [reflexivity|].
  inversion H as [|? ? Hc Hr]; subst. simpl. rewrite Hc. now apply IH.
Qed.

Lemma findFrom_found p (pre : str) d rest : forall i,
  Forall (fun c => p c = false) pre -> p d = true ->
  findFrom p (pre ++ d :: rest) i = Some (i + length pre).
Proof.
  induction pre as [|c r IH]; intros i H Hd; simpl.
  - rewrite Hd. f_equal. lia.
  - inversion H as [|? ? Hc Hr]; subst. rewrite Hc, (IH (S i) Hr Hd).
    f_equal. lia.
Qed.

Lemma firstn_exact (a b : str) : firstn (length a) (a ++ b) = a.
Proof. induction a as [|c r IH]; simpl; [reflexivity|now rewrite IH]. Qed.

Lemma skipn_exact (a b : str) : skipn (length a) (a ++ b) = b.
Proof. induction a as [|c r IH]; simpl; [reflexivity|exact IH]. Qed.

(** The substring between the ends of [a] and of [b] in [a ++ b ++ c]. *)
Lemma substring_middle (a b c : str) n m :
  n = length a -> m = length a + length b ->
  substring (a ++ b ++ c) n m = b.
Proof.
  intros -> ->. unfold substring.
  rewrite Nat.min_l, Nat.max_r by lia.
  replace (length a + length b - length a) with (length b) by lia.
  now rewrite skipn_exact, firstn_exact.
Qed.

Lemma parseIdFrom_none l (s : str) : forall i,
  Forall (fun c => isIdEnd c = false) s -> parseIdFrom l s i = None.
Proof.
  induction s as [|c r IH]; intros i H; [reflexivity|].
  inversion H as [|? ? Hc Hr]; subst. cbn [parseIdFrom].
  rewrite (findFrom_none isIdEnd r (i + 1) Hr), (IH (S i) Hr).
  now destruct (Ascii.eqb c "#").
Qed.

Lemma parseIdFrom_skip l (pre s : str) : forall i,
  Forall (fun c => Ascii.eqb c "#" = false) pre ->
  parseIdFrom l (pre ++ s) i = parseIdFrom l s (i + length pre).
Proof.
  induction pre as [|c r IH]; intros i H; simpl.
  - f_equal. lia.
  - inversion H as [|? ? Hc Hr]; subst. rewrite Hc, (IH (S i) Hr).
    f_equal. lia.
Qed.

Lemma classesFrom_skip l (name s : str) : forall i b acc,
  Forall (fun c => isClassChar c = true) name ->
  classesFrom l (name ++ s) i b acc = classesFrom l s (i + length name) b acc.
Proof.
  induction name as [|c r IH]; intros i b acc H; simpl.
  - f_equal. lia.
  - inversion H as [|? ? Hc Hr]; subst.
    unfold isClassChar, isClassEnd, isParen in Hc.
    destruct (Ascii.eqb c "."); [discriminate|].
    destruct (Ascii.eqb c "("); [discriminate|].
    destruct (Ascii.eqb c ")"); [simpl in Hc; now rewrite andb_false_r in Hc|].
    rewrite andb_false_r, (IH (S i) b acc Hr). f_equal. lia.
Qed.

Lemma classChar_not_end (name : str) :
  Forall (fun c => isClassChar c = true) name ->
  Forall (fun c => isClassEnd c = false) name.
Proof.
  apply Forall_impl. intros c Hc. unfold isClassChar in Hc.
  apply andb_true_iff in Hc as [Hc _]. now apply negb_true_iff.
Qed.

(** The loop of [_parseClasses] over classes written one after the other,
    from the dot of the first one: each is pushed when something follows
    it. *)
Lemma classesFrom_dotted (terminated : bool) (cs : list str) :
  forall (done : str) (acc : list str),
  Forall (fun c : str => Forall (fun x => isClassChar x = true) c) cs ->
  let tail := if terminated then [":"%char] else [] in
  classesFrom (done ++ dotted cs ++ tail) (dotted cs ++ tail)
    (length done) false acc
  = acc ++ (if terminated then cs else removelast cs).
Proof.
  induction cs as [|c1 cs' IH]; intros done acc HF tail.
  - subst tail. destruct terminated; simpl; now rewrite app_nil_r.
  - inversion HF as [|? ? Hc1 Hcs']; subst.
    assert (Hl : done ++ dotted (c1 :: cs') ++ tail
                 = (done ++ ["."%char]) ++ c1 ++ dotted cs' ++ tail).
    { unfold dotted. cbn [map concat]. now rewrite <- !app_assoc. }
    assert (Hl' : (done ++ ["."%char]) ++ c1 ++ dotted cs' ++ tail
                  = (done ++ "."%char :: c1) ++ dotted cs' ++ tail).
    { now rewrite <- !app_assoc. }
    assert (Hs : dotted (c1 :: cs') ++ tail
                 = "."%char :: c1 ++ dotted cs' ++ tail).
    { unfold dotted. cbn [map concat]. now rewrite <- !app_assoc. }
    assert (Hshape : (cs' = [] /\ terminated = false) \/
                     exists x X, dotted cs' ++ tail = x :: X /\
                                 isClassEnd x = true).
    { destruct cs' as [|c2 cs'']; subst tail.
      - destruct terminated; [right|left; now split].
        exists ":"%char, []. now split.
      - right. unfold dotted. cbn [map concat app]. eexists _, _.
        split; reflexivity. }
    rewrite Hl, Hs. clear Hl Hs.
    remember ((done ++ ["."%char]) ++ c1 ++ dotted cs' ++ tail) as l eqn:El.
    cbn [classesFrom].
    change (Ascii.eqb "." "(") with false.
    change (Ascii.eqb "." ")") with false.
    change (Ascii.eqb "." ".") with true. cbn [negb andb].
    destruct Hshape as [[-> ->]|(x & X & EX & Hx)].
    + subst tail. cbn [dotted map concat app]. rewrite app_nil_r.
      rewrite (findFrom_none isClassEnd c1 _ (classChar_not_end c1 Hc1)).
      rewrite <- (app_nil_r c1) at 1.
      rewrite (classesFrom_skip l c1 [] _ _ _ Hc1). simpl.
      now rewrite app_nil_r.
    + rewrite EX.
      rewrite (findFrom_found isClassEnd c1 x X _ (classChar_not_end c1 Hc1) Hx).
      rewrite (classesFrom_skip l c1 (x :: X) _ _ _ Hc1).
      assert (Hsub : substring l (length done + 1) (length done + 1 + length c1)
                     = c1).
      { rewrite El. apply substring_middle; rewrite length_app; simpl; lia. }
      rewrite Hsub, <- EX, Hl'.
      replace (S (length done) + length c1)
        with (length (done ++ "."%char :: c1))
        by (rewrite length_app; simpl; lia).
      subst tail.
      pose proof (IH (done ++ "."%char :: c1) (acc ++ [c1]) Hcs') as IH'.
      cbn zeta in IH'.
      transitivity ((acc ++ [c1])
                    ++ (if terminated then cs' else removelast cs'));
        [exact IH'|].
      rewrite <- app_assoc. f_equal. simpl.
      destruct terminated; [reflexivity|].
      destruct cs' as [|c2 cs'']; [|reflexivity].
      discriminate EX.
Qed.

Lemma parensFrom_group (pre inner post : str) :
  Forall (fun c => Ascii.eqb c "(" = false) pre ->
  Forall (fun c => Ascii.eqb c ")" = false) inner ->
  parensFrom (pre ++ "("%char :: inner ++ ")"%char :: post) 0 false 0
  = Some (length pre, length pre + 1 + length inner).
Proof.
  intros Hpre Hinner.
  assert (Hin : forall i start,
            parensFrom (inner ++ ")"%char :: post) i true start
            = Some (start, i + length inner)).
  { induction Hinner as [|c r Hc Hr IH]; intros i start.
    - simpl. f_equal. f_equal. lia.
    - cbn [app parensFrom length negb andb]. rewrite Hc, IH.
      f_equal. f_equal. lia. }
  assert (Hgen : forall i start,
            parensFrom (pre ++ "("%char :: inner ++ ")"%char :: post) i false start
            = Some (i + length pre, i + length pre + 1 + length inner)).
  { induction Hpre as [|c r Hc Hr IH]; intros i start.
    - cbn [app parensFrom length negb andb].
      change (Ascii.eqb "(" "(") with true. cbn iota.
      rewrite Hin. f_equal. f_equal; lia.
    - cbn [app parensFrom length negb andb]. rewrite Hc, IH.
      f_equal. f_equal; lia. }
  apply Hgen.
Qed.

End Scanning.

(** X6: the tag of a line is its text before the first of [#], [.], [(]
    and [:], whatever follows; a text without these four characters has no
    tag. *)
Theorem X6_tag_is_text_before_first_delimiter (t rest : str) (d : ascii) :
  Forall (fun c => Compiler.isTagEnd c = false) t ->
  Compiler.isTagEnd d = true ->
  Compiler._parseTag (t ++ d :: rest) = Compiler.Tag t /\
  Compiler._parseTag t = Compiler.NO_TAG.
Proof.
  intros Ht Hd. unfold Compiler._parseTag. split.
  - rewrite (findFrom_found Compiler.isTagEnd t d rest 0 Ht Hd).
    f_equal. apply (substring_middle [] t (d :: rest)); reflexivity.
  - now rewrite (findFrom_none Compiler.isTagEnd t 0 Ht).
Qed.

Lemma X6_tag_is_text_before_first_delimiter_witness :
  Compiler._parseTag (lit "div#main.wide(title:x):") = Compiler.Tag (lit "div") /\
  Compiler._parseTag (lit "div") = Compiler.NO_TAG.
Proof.
  apply (X6_tag_is_text_before_first_delimiter (lit "div")
           (lit "main.wide(title:x):") "#"%char).
  - repeat constructor.
  - reflexivity.
Defined.

(** X7: behind the first [#] the id is the text up to the first of [.],
    [(] and [:]; it may hold spaces and further [#].  When none of the
    three follows the first [#], there is no id, also when the text holds
    more [#]. *)
Theorem X7_id_needs_a_terminator (pre : str) :
  Forall (fun c => Ascii.eqb c "#" = false) pre ->
  (forall id d rest,
      Forall (fun c => Compiler.isIdEnd c = false) id ->
      Compiler.isIdEnd d = true ->
      Compiler._parseId (pre ++ "#"%char :: id ++ d :: rest) = Some id) /\
  (forall tail,
      Forall (fun c => Compiler.isIdEnd c = false) tail ->
      Compiler._parseId (pre ++ "#"%char :: tail) = None).
Proof.
  intros Hpre. unfold Compiler._parseId. split.
  - intros id d rest Hid Hd.
    rewrite (parseIdFrom_skip _ pre _ 0 Hpre). cbn [Compiler.parseIdFrom].
    change (Ascii.eqb "#" "#") with true. cbn iota.
    rewrite (findFrom_found Compiler.isIdEnd id d rest _ Hid Hd).
    f_equal.
    replace (pre ++ "#"%char :: id ++ d :: rest)
      with ((pre ++ ["#"%char]) ++ id ++ d :: rest)
      by now rewrite <- app_assoc.
    apply substring_middle; rewrite length_app; simpl; lia.
  - intros tail Ht.
    rewrite (parseIdFrom_skip _ pre _ 0 Hpre). cbn [Compiler.parseIdFrom].
    change (Ascii.eqb "#" "#") with true. cbn iota.
    rewrite (findFrom_none Compiler.isIdEnd tail _ Ht).
    now apply parseIdFrom_none.
Qed.

Lemma X7_id_needs_a_terminator_witness :
  Compiler._parseId (lit "p#greeting:") = Some (lit "greeting") /\
  Compiler._parseId (lit "p#greeting Hello world") = None.
Proof.
  assert (Hpre : Forall (fun c => Ascii.eqb c "#" = false) (lit "p"))
    by repeat constructor.
  destruct (X7_id_needs_a_terminator (lit "p") Hpre) as [Hfound Hnone].
  split.
  - apply (Hfound (lit "greeting") ":"%char []); [repeat constructor|reflexivity].
  - apply (Hnone (lit "greeting Hello world")). repeat constructor.
Defined.

(** X8: for classes written one after the other behind a tag, each after
    its dot, where the tag holds none of [.], [(] and [)] and the class
    names hold none of [.], [(], [)], [:] and [#]: when a colon ends the
    line, every class is collected, in order, joined by single spaces;
    when the last class ends the line, it is the only one not collected. *)
Theorem X8_classes_written_in_a_row (tag : str) (cs : list str) :
  Forall (fun c => Ascii.eqb c "." || isParen c = false) tag ->
  Forall (fun c : str => Forall (fun x => isClassChar x = true) c) cs ->
  Compiler._parseClasses (tag ++ dotted cs ++ [":"%char])
  = match cs with
    | [] => None
    | _ :: _ => Some (join (lit " ") cs)
    end /\
  Compiler._parseClasses (tag ++ dotted cs)
  = match removelast cs with
    | [] => None
    | _ :: _ => Some (join (lit " ") (removelast cs))
    end.
Proof.
  intros Htag Hcs.
  assert (Hskip : forall l s acc i,
            Compiler.classesFrom l (tag ++ s) i false acc
            = Compiler.classesFrom l s (i + length tag) false acc).
  { intros l s acc.
    induction Htag as [|c r Hc Hr IH]; intros i.
    - simpl. f_equal. lia.
    - cbn [app Compiler.classesFrom length]. unfold isParen in Hc.
      destruct (Ascii.eqb c "."); [discriminate|].
      destruct (Ascii.eqb c "("); [discriminate|].
      destruct (Ascii.eqb c ")"); [discriminate|].
      rewrite andb_false_r, (IH (S i)). f_equal. lia. }
  unfold Compiler._parseClasses. split.
  - rewrite (Hskip _ _ _ 0). cbn [Nat.add].
    pose proof (classesFrom_dotted true cs tag [] Hcs) as H.
    cbn zeta in H. cbn [app] in H.
    rewrite H. destruct cs; reflexivity.
  - rewrite (Hskip _ _ _ 0). cbn [Nat.add].
    pose proof (classesFrom_dotted false cs tag [] Hcs) as H.
    cbn zeta in H. cbn [app] in H. rewrite !app_nil_r in H.
    rewrite H. destruct (removelast cs); reflexivity.
Qed.

Lemma X8_classes_written_in_a_row_witness :
  Compiler._parseClasses (lit "div.a.b.c:") = Some (lit "a b c") /\
  Compiler._parseClasses (lit "div.a.b.c") = Some (lit "a b").
Proof.
  apply (X8_classes_written_in_a_row (lit "div") [lit "a"; lit "b"; lit "c"]);
    repeat constructor.
Defined.

(** X9: the named attributes are read from the text between the first [(]
    and the first [)] behind it, trimmed; what stands before the [(] and
    behind the [)] does not matter, and a [(] inside the group does not
    open another group. *)
Theorem X9_attribute_group_is_first_parenthesis (pre inner post : str) :
  Forall (fun c => Ascii.eqb c "(" = false) pre ->
  Forall (fun c => Ascii.eqb c ")" = false) inner ->
  Compiler._parseProps (pre ++ "("%char :: inner ++ ")"%char :: post)
  = Compiler.propsLoop (trim inner) 0 None JsObject.empty.
Proof.
  intros Hpre Hinner. unfold Compiler._parseProps.
  rewrite (parensFrom_group pre inner post Hpre Hinner).
  replace (pre ++ "("%char :: inner ++ ")"%char :: post)
    with ((pre ++ ["("%char]) ++ inner ++ ")"%char :: post)
    by now rewrite <- app_assoc.
  rewrite substring_middle; [reflexivity| |];
    rewrite length_app; simpl; lia.
Qed.

Lemma X9_attribute_group_is_first_parenthesis_witness :
  Compiler._parseProps (lit "a#x( href:y (z):w")
  = Compiler.propsLoop (lit "href:y (z") 0 None JsObject.empty.
Proof.
  apply (X9_attribute_group_is_first_parenthesis (lit "a#x") (lit " href:y (z")
           (lit ":w")); repeat constructor.
Defined.


(** ** Named attributes, further *)

Section AttributeLoop.

Import Compiler.

Lemma propsLoop_done s i st props :
  length s <= i -> propsLoop s i st props = props.
Proof.
  intros H. rewrite (propsLoop_equation_1 s i st props).
  destruct (lt_dec i (length s)); [lia|reflexivity].
Qed.

Lemma propsLoop_start s i props :
  i < length s ->
  propsLoop s i None props = propsLoop s (S i) (Some i) props.
Proof.
  intros H. rewrite (propsLoop_equation_1 s i None props).
  destruct (lt_dec i (length s)); [|lia].
  reflexivity.
Qed.

Lemma propsLoop_other s i start props :
  i < length s -> charIs ":" (charAt s i) = false ->
  propsLoop s i (Some start) props = propsLoop s (S i) (Some start) props.
Proof.
  intros H Hc. rewrite (propsLoop_equation_1 s i (Some start) props).
  destruct (lt_dec i (length s)); [|lia].
  cbn [propsLoop_unfold_clause_1 propsLoop_unfold_clause_1_clause_2].
  rewrite Hc. reflexivity.
Qed.

Lemma propsLoop_colon s i start props :
  i < length s -> charIs ":" (charAt s i) = true ->
  propsLoop s i (Some start) props
  = propsLoop s
      (S (skipSpaces s (skipWord s (skipSpaces s (S i))))) None
      (JsObject.set props (substring s start i)
         (substring s (skipSpaces s (S i))
            (skipWord s (skipSpaces s (S i))))).
Proof.
  intros H Hc. rewrite (propsLoop_equation_1 s i (Some start) props).
  destruct (lt_dec i (length s)); [|lia].
  cbn [propsLoop_unfold_clause_1 propsLoop_unfold_clause_1_clause_2].
  rewrite Hc. reflexivity.
Qed.

Lemma charAt_exact (a : str) c r : charAt (a ++ c :: r) (length a) = Some c.
Proof. unfold charAt. induction a as [|x a IH]; simpl; [reflexivity|exact IH]. Qed.

Lemma takeWhile_stop p (v tail : str) :
  forallb p v = true ->
  match tail with [] => True | c :: _ => p c = false end ->
  takeWhile p (v ++ tail) = v.
Proof.
  intros Hv Ht. induction v as [|x v IH]; simpl in *.
  - destruct tail as [|c r]; [reflexivity|]. simpl. now rewrite Ht.
  - apply andb_true_iff in Hv as [Hx Hv]. rewrite Hx. now rewrite IH.
Qed.

(** The loop runs over the rest of a name, which holds no colon. *)
Lemma propsLoop_name (a k' b : str) start props :
  forallb (fun c => negb (Ascii.eqb c ":")) k' = true ->
  propsLoop (a ++ k' ++ b) (length a) (Some start) props
  = propsLoop (a ++ k' ++ b) (length a + length k') (Some start) props.
Proof.
  revert a. induction k' as [|c r IH]; intros a H.
  - simpl. now rewrite Nat.add_0_r.
  - simpl in H. apply andb_true_iff in H as [Hc Hr].
    rewrite propsLoop_other.
    + replace (a ++ (c :: r) ++ b) with ((a ++ [c]) ++ r ++ b)
        by (rewrite <- app_assoc; reflexivity).
      replace (S (length a)) with (length (a ++ [c]))
        by (rewrite length_app; simpl; lia).
      rewrite (IH (a ++ [c]) Hr). f_equal.
      rewrite length_app. simpl. lia.
    + rewrite !length_app. simpl. lia.
    + change (a ++ (c :: r) ++ b) with (a ++ c :: r ++ b).
      rewrite charAt_exact. simpl. now apply negb_true_iff.
Qed.

(** One attribute: from the index of the first character of its name, read
    with no name begun, the loop assigns the value to the name and goes on
    one character behind the spaces that follow the value. *)
Lemma propsLoop_attribute (pre k v tail : str) (m : nat) props :
  nameOk k = true -> valueOk v = true ->
  (tail = [] /\ m = 0 \/
   exists n c rest, tail = repeat SPACE (S n) ++ c :: rest /\
                    Ascii.eqb c SPACE = false /\ m = S n) ->
  propsLoop (pre ++ k ++ ":"%char :: v ++ tail) (length pre) None props
  = propsLoop (pre ++ k ++ ":"%char :: v ++ tail)
      (S (length pre + length k + 1 + length v + m)) None
      (JsObject.set props k v).
Proof.
  intros Hk Hv Htail.
  set (s := pre ++ k ++ ":"%char :: v ++ tail).
  destruct k as [|k0 k']; [discriminate|]. simpl in Hk.
  assert (Hlen : length s
                 = length pre + S (length k') + 1 + length v + length tail).
  { unfold s. rewrite !length_app. simpl. rewrite length_app. lia. }
  rewrite propsLoop_start by lia.
  (* the rest of the name *)
  assert (Hs1 : s = (pre ++ [k0]) ++ k' ++ ":"%char :: v ++ tail).
  { unfold s. rewrite <- app_assoc. reflexivity. }
  replace (S (length pre)) with (length (pre ++ [k0]))
    by (rewrite length_app; simpl; lia).
  rewrite Hs1, (propsLoop_name (pre ++ [k0]) k' _ _ _ Hk), <- Hs1.
  replace (length (pre ++ [k0]) + length k')
    with (length (pre ++ k0 :: k'))
    by (rewrite !length_app; simpl; lia).
  (* the colon *)
  assert (Hs2 : s = (pre ++ k0 :: k') ++ ":"%char :: v ++ tail).
  { unfold s. rewrite <- app_assoc. reflexivity. }
  assert (Hcolon : charIs ":" (charAt s (length (pre ++ k0 :: k'))) = true).
  { rewrite Hs2, charAt_exact. reflexivity. }
  rewrite propsLoop_colon;
    [|rewrite Hlen, length_app; simpl; lia|exact Hcolon].
  (* the value *)
  assert (Hs3 : s = ((pre ++ k0 :: k') ++ [":"%char]) ++ v ++ tail).
  { unfold s. rewrite <- !app_assoc. reflexivity. }
  assert (Hi : S (length (pre ++ k0 :: k'))
               = length ((pre ++ k0 :: k') ++ [":"%char])).
  { rewrite (length_app _ [":"%char]). simpl. lia. }
  destruct v as [|v0 v']; [discriminate|].
  assert (Hv0 : Ascii.eqb v0 SPACE = false).
  { simpl in Hv. apply andb_true_iff in Hv as [Hv _].
    now apply negb_true_iff. }
  assert (Hstart : skipSpaces s (S (length (pre ++ k0 :: k')))
                   = S (length (pre ++ k0 :: k'))).
  { unfold skipSpaces. rewrite Hi, Hs3, skipn_exact. simpl.
    rewrite Hv0. simpl. lia. }
  rewrite Hstart.
  assert (Htail' : match tail with
                   | [] => True
                   | c :: _ => negb (Ascii.eqb c SPACE) = false
                   end).
  { destruct Htail as [[-> _]|(n & c & rest & -> & _ & _)]; [exact I|].
    reflexivity. }
  assert (Hend : skipWord s (S (length (pre ++ k0 :: k')))
                 = S (length (pre ++ k0 :: k')) + length (v0 :: v')).
  { unfold skipWord. rewrite Hi, Hs3, skipn_exact.
    rewrite (takeWhile_stop (fun c => negb (Ascii.eqb c SPACE))
               (v0 :: v') tail Hv Htail'). reflexivity. }
  rewrite Hend.
  assert (Hspaces : skipSpaces s (S (length (pre ++ k0 :: k')) + length (v0 :: v'))
                    = S (length (pre ++ k0 :: k')) + length (v0 :: v') + m).
  { unfold skipSpaces. f_equal.
    assert (Hs4 : s = (((pre ++ k0 :: k') ++ [":"%char]) ++ v0 :: v') ++ tail).
    { unfold s. rewrite <- !app_assoc. reflexivity. }
    replace (S (length (pre ++ k0 :: k')) + length (v0 :: v'))
      with (length (((pre ++ k0 :: k') ++ [":"%char]) ++ v0 :: v'))
      by (rewrite (length_app _ (v0 :: v')), <- Hi; reflexivity).
    rewrite Hs4, skipn_exact.
    destruct Htail as [[-> ->]|(n & c & rest & -> & Hc & ->)];
      [reflexivity|].
    assert (Hrep : forall j t, takeWhile (fun c => Ascii.eqb c SPACE)
                                 (repeat SPACE j ++ c :: t) = repeat SPACE j).
    { induction j as [|j IHj]; intros t; simpl; [now rewrite Hc|].
      now rewrite IHj. }
    rewrite (Hrep (S n)). apply repeat_length. }
  rewrite Hspaces.
  assert (Hname : substring s (length pre) (length (pre ++ k0 :: k'))
                  = k0 :: k').
  { unfold s. apply (substring_middle pre (k0 :: k')); [reflexivity|].
    now rewrite length_app. }
  assert (Hvalue : substring s (S (length (pre ++ k0 :: k')))
                     (S (length (pre ++ k0 :: k')) + length (v0 :: v'))
                   = v0 :: v').
  { rewrite Hs3. apply substring_middle; [exact Hi|]. now rewrite Hi. }
  rewrite Hname, Hvalue. f_equal.
  rewrite length_app. simpl. lia.
Qed.

End AttributeLoop.

Section AttributeGroups.

Import Compiler.

Lemma propsLoop_written later : forall (pre k v : str) props,
  nameOk k = true -> valueOk v = true ->
  forallb laterOk later = true ->
  propsLoop (pre ++ k ++ ":"%char :: v ++ concat (map laterAttribute later))
    (length pre) None props
  = fold_left (fun o e => JsObject.set o (fst e) (snd e))
      ((k, v) :: map laterEntry later) props.
Proof.
  induction later as [|[[[n c] k2] v2] later' IH]; intros pre k v props Hk Hv Hl.
  - cbn [map concat].
    rewrite (propsLoop_attribute pre k v [] 0 props Hk Hv) by (left; now split).
    rewrite propsLoop_done; [reflexivity|].
    rewrite !length_app. simpl. rewrite length_app. simpl. lia.
  - cbn [forallb laterOk] in Hl.
    apply andb_true_iff in Hl as [Hok Hl].
    apply andb_true_iff in Hok as [Hok Hv2].
    apply andb_true_iff in Hok as [Hc Hk2]. apply negb_true_iff in Hc.
    cbn [map concat laterEntry].
    set (tail' := k2 ++ ":"%char :: v2 ++ concat (map laterAttribute later')).
    assert (Hshape : laterAttribute (n, c, k2, v2)
                     ++ concat (map laterAttribute later')
                     = repeat SPACE (S n) ++ c :: tail').
    { unfold tail', laterAttribute.
      repeat (progress (rewrite <- ?app_assoc; cbn [app])). reflexivity. }
    rewrite Hshape.
    rewrite (propsLoop_attribute pre k v (repeat SPACE (S n) ++ c :: tail')
               (S n) props Hk Hv).
    2:{ right. exists n, c, tail'. now repeat split. }
    set (pre' := pre ++ k ++ ":"%char :: v ++ repeat SPACE (S n) ++ [c]).
    replace (pre ++ k ++ ":"%char :: v ++ repeat SPACE (S n) ++ c :: tail')
      with (pre' ++ tail').
    2:{ unfold pre'. rewrite <- !app_assoc. cbn [app].
        rewrite <- !app_assoc. reflexivity. }
    replace (S (length pre + length k + 1 + length v + S n))
      with (length pre').
    2:{ unfold pre'. rewrite !length_app. cbn [length].
        rewrite !length_app, repeat_length. simpl. lia. }
    unfold tail'. rewrite (IH pre' k2 v2 _ Hk2 Hv2 Hl). reflexivity.
Qed.

Lemma fold_set_NoDup es : forall o,
  NoDup (map fst o) ->
  NoDup (map fst (fold_left (fun o e => JsObject.set o (fst e) (snd e)) es o)).
Proof.
  induction es as [|e r IH]; intros o H; simpl; [exact H|].
  apply IH. now apply set_NoDup.
Qed.

End AttributeGroups.

(** X10: in a group of attributes the first is read whole; of every later
    one, written behind one or more spaces with a name of two characters or
    more, the first character is stepped over, so that its name is assigned
    without it.  The first name is not empty and has no colon behind its
    first character; a later name begins with a character that is no
    space, and what is left of it without that character is not empty and
    has no colon behind its first character; the values are not empty and
    hold no space.  The values are assigned in the order of writing. *)
Theorem X10_later_names_lose_first_character (k1 v1 : str)
  (later : list (nat * ascii * str * str)) (props : JsObject.obj) :
  nameOk k1 = true -> valueOk v1 = true ->
  forallb laterOk later = true ->
  Compiler.propsLoop (writtenAttributes k1 v1 later) 0 None props
  = fold_left (fun o e => JsObject.set o (fst e) (snd e))
      ((k1, v1) :: map laterEntry later) props.
Proof.
  intros Hk Hv Hl.
  apply (propsLoop_written later [] k1 v1 props Hk Hv Hl).
Qed.

Lemma X10_later_names_lose_first_character_witness :
  writtenAttributes (lit "href") (lit "x")
    [(0, "c"%char, lit "lass", lit "y"); (1, "i"%char, lit "d", lit "z")]
  = lit "href:x class:y  id:z" /\
  Compiler._parseProps (lit "a(href:x class:y  id:z):")
  = [(lit "href", lit "x"); (lit "lass", lit "y"); (lit "d", lit "z")].
Proof.
  split; [reflexivity|].
  change (Compiler._parseProps (lit "a(href:x class:y  id:z):"))
    with (Compiler.propsLoop
            (writtenAttributes (lit "href") (lit "x")
               [(0, "c"%char, lit "lass", lit "y");
                (1, "i"%char, lit "d", lit "z")]) 0 None JsObject.empty).
  rewrite (X10_later_names_lose_first_character (lit "href") (lit "x")
             [(0, "c"%char, lit "lass", lit "y"); (1, "i"%char, lit "d", lit "z")]
             JsObject.empty eq_refl eq_refl eq_refl).
  reflexivity.
Defined.

(** X11: no attribute name occurs twice in a parsed line, neither among its
    properties nor among the attributes written into its opening tag. *)
Theorem X11_attribute_names_are_unique (content : str) (L : Compiler.Line) :
  In L (Compiler.new content) ->
  NoDup (map fst (Compiler.props L)) /\
  NoDup (map fst (JsObject.entries (Compiler.props L))).
Proof.
  intros HIn.
  destruct (new_lines_parsed content L HIn) as [l [-> Hprops]].
  assert (H : NoDup (map fst (Compiler.props (Compiler.parseLine l)))).
  { unfold Compiler.parseLine. cbn [Compiler.props]. rewrite Hprops.
    apply fold_set_NoDup.
    unfold Compiler.setIf.
    destruct (Compiler._parseClasses (Compiler.line l)) as [c|];
      destruct (Compiler._parseId (Compiler.line l)) as [i|];
      repeat match goal with
             | |- context [if ?b then _ else _] => destruct b
             end;
      repeat apply set_NoDup; constructor. }
  split; [exact H|].
  eapply Permutation_NoDup; [|exact H].
  apply Permutation_map. symmetry. apply entries_perm.
Qed.

Lemma X11_attribute_names_are_unique_witness :
  In (Compiler.mkLine (lit "a#x(id:y id:z)") 0 (Compiler.Tag (lit "a"))
        [(lit "id", lit "y"); (lit "d", lit "z")])
    (Compiler.new (lit "a#x(id:y id:z)")) /\
  NoDup (map fst [(lit "id", lit "y"); (lit "d", lit "z")]).
Proof.
  assert (HIn : In (Compiler.mkLine (lit "a#x(id:y id:z)") 0
                      (Compiler.Tag (lit "a"))
                      [(lit "id", lit "y"); (lit "d", lit "z")])
                  (Compiler.new (lit "a#x(id:y id:z)"))).
  { left. reflexivity. }
  split; [exact HIn|].
  exact (proj1 (X11_attribute_names_are_unique _ _ HIn)).
Defined.

(** X12: a line whose tag is a numeral of value one is written as text.
    The emitter compares the tag with the number [1] loosely, so for such a
    tag in front of a delimiter the opening text is the whole line behind
    its indent, attributes or not, and the closing text is empty. *)
Theorem X12_numeral_tag_written_as_text (t rest : str) (d : ascii) (lv : nat) :
  Forall (fun c => Compiler.isTagEnd c = false) t ->
  Compiler.isTagEnd d = true ->
  JsNumber.stringIsOne t = true ->
  let parsed := Compiler.parseLine (Compiler.newLine (t ++ d :: rest) lv) in
  Compiler.tag parsed = Compiler.Tag t /\
  Compiler._getOpeningTag parsed = tabs lv ++ (t ++ d :: rest) ++ [NL] /\
  Compiler._getClosingTag parsed = [].
Proof.
  intros Ht Hd Hone parsed.
  assert (Htag : Compiler.tag parsed = Compiler.Tag t).
  { subst parsed. cbn [Compiler.parseLine Compiler.tag Compiler.newLine
                       Compiler.line].
    unfold Compiler._parseTag.
    rewrite (findFrom_found Compiler.isTagEnd t d rest 0 Ht Hd).
    f_equal. apply (substring_middle [] t (d :: rest)); reflexivity. }
  split; [exact Htag|].
  unfold Compiler._getOpeningTag, Compiler._getClosingTag.
  rewrite Htag. cbn [Compiler.isNoTag]. rewrite Hone.
  split; reflexivity.
Qed.

Lemma X12_numeral_tag_written_as_text_witness :
  JsNumber.stringIsOne (lit "0x1") = true /\
  compileTemplate (lit "0x1.wide(title:x):") = lit "0x1.wide(title:x):" ++ [NL].
Proof.
  split; [reflexivity|].
  destruct (X12_numeral_tag_written_as_text (lit "0x1") (lit "wide(title:x):")
              "."%char 0) as (_ & Hopen & Hclose);
    [repeat constructor|reflexivity|reflexivity|].
  unfold compileTemplate.
  change (Compiler.new (lit "0x1.wide(title:x):"))
    with [Compiler.parseLine
            (Compiler.newLine (lit "0x1" ++ "."%char :: lit "wide(title:x):") 0)].
  unfold Compiler.compile. cbn [Compiler.compileLoop Compiler.closeWhile
                                 Compiler.closeAll app].
  rewrite Hopen, Hclose. reflexivity.
Defined.

(** ** The pre-processor, further *)

Section Indentation.

Import PreProcessor.

Lemma unindented_heads l :
  unindented l = true ->
  charIs SPACE (charAt l 0) = false /\ charIs TAB (charAt l 0) = false.
Proof.
  unfold unindented. intros H. apply andb_true_iff in H as [H1 H2].
  now apply negb_true_iff in H1, H2.
Qed.

(** The first line that begins with a space or a tab decides the kind of
    indentation. *)
Lemma indentation_first pre first post :
  Forall (fun l => unindented l = true) pre ->
  _getIndentationType (pre ++ first :: post)
  = _getIndentationType (first :: post).
Proof.
  induction 1 as [|l rest Hl Hrest IH]; [reflexivity|].
  apply unindented_heads in Hl as [Hs Ht].
  cbn [app _getIndentationType]. rewrite Hs, Ht. exact IH.
Qed.

Lemma leadingSpaces_head l :
  charIs SPACE (charAt l 0) = true -> 1 <= leadingSpaces l.
Proof.
  destruct l as [|c r]; [discriminate|]. cbn. intros H.
  unfold leadingSpaces, isSpace. cbn [takeWhile]. rewrite H. simpl. lia.
Qed.

(** The first line that begins with a space gives the width. *)
Lemma spacesPerTab_first pre first post :
  Forall (fun l => unindented l = true) pre ->
  blank first = false ->
  charIs SPACE (charAt first 0) = true ->
  _getSpacesPerTab (pre ++ first :: post) = leadingSpaces first.
Proof.
  intros Hpre Hb Hs.
  induction Hpre as [|l rest Hl Hrest IH].
  - cbn [app _getSpacesPerTab]. rewrite Hs.
    now rewrite (countSpaces_leading first 0 Hb).
  - apply unindented_heads in Hl as [Hl _].
    cbn [app _getSpacesPerTab]. rewrite Hl. exact IH.
Qed.

Lemma process_lines lines :
  lines <> [] ->
  Forall (fun l => blank l = false) lines ->
  Forall (fun l => ~ In NL l) lines ->
  process (join [NL] lines) = option_map (join [NL])
    match _getIndentationType lines with
    | INDENTED_WITH_SPACES =>
        _replaceSpacesWithTabs (_getSpacesPerTab lines) lines
    | INDENTED_WITH_TABS => Some lines
    end.
Proof.
  intros Hne Hnb HNL. unfold process, processLines, new.
  rewrite (split_join lines Hne HNL), (removeEmptyLines_id lines Hnb).
  reflexivity.
Qed.

Lemma process_tab_first pre first post :
  Forall (fun l => blank l = false) (pre ++ first :: post) ->
  Forall (fun l => ~ In NL l) (pre ++ first :: post) ->
  Forall (fun l => unindented l = true) pre ->
  charIs TAB (charAt first 0) = true ->
  process (join [NL] (pre ++ first :: post))
  = Some (join [NL] (pre ++ first :: post)).
Proof.
  intros Hnb HNL Hpre Ht.
  rewrite process_lines; [| now destruct pre | exact Hnb | exact HNL].
  rewrite (indentation_first pre first post Hpre).
  cbn [_getIndentationType]. rewrite Ht.
  destruct first as [|c r]; [discriminate|]. cbn in Ht |- *.
  apply Ascii.eqb_eq in Ht. subst c. reflexivity.
Qed.

Lemma process_space_first pre first post :
  Forall (fun l => blank l = false) (pre ++ first :: post) ->
  Forall (fun l => ~ In NL l) (pre ++ first :: post) ->
  Forall (fun l => unindented l = true) pre ->
  charIs SPACE (charAt first 0) = true ->
  process (join [NL] (pre ++ first :: post))
  = Some (join [NL] (map (rewritten (leadingSpaces first))
                       (pre ++ first :: post))).
Proof.
  intros Hnb HNL Hpre Hs.
  assert (Hb : blank first = false).
  { rewrite Forall_forall in Hnb. apply Hnb, in_or_app. right. now left. }
  rewrite process_lines; [| now destruct pre | exact Hnb | exact HNL].
  rewrite (indentation_first pre first post Hpre).
  cbn [_getIndentationType]. rewrite Hs.
  rewrite (spacesPerTab_first pre first post Hpre Hb Hs).
  rewrite (replace_rewritten _ _ (leadingSpaces_head first Hs) Hnb).
  reflexivity.
Qed.

(** Blank lines are dropped before anything else is looked at. *)
Lemma removeEmptyLines_blank a bl b :
  blank bl = true ->
  _removeEmptyLines (a ++ bl :: b) = _removeEmptyLines (a ++ b).
Proof.
  intros Hbl. unfold _removeEmptyLines. rewrite !filter_app.
  cbn [filter]. fold (blank bl). rewrite Hbl. reflexivity.
Qed.

End Indentation.

(** X13: the first line that begins with a space or a tab decides for the
    whole text.  When it begins with a tab, nothing is rewritten, also not
    the lines behind it that begin with spaces; when it begins with a
    space, the length of its leading run of spaces is the width by which
    every line is rewritten. *)
Theorem X13_first_indented_line_decides (pre post : list str) (first : str) :
  Forall (fun l => blank l = false) (pre ++ first :: post) ->
  Forall (fun l => ~ In NL l) (pre ++ first :: post) ->
  Forall (fun l => unindented l = true) pre ->
  (charIs TAB (charAt first 0) = true ->
   PreProcessor.process (join [NL] (pre ++ first :: post))
   = Some (join [NL] (pre ++ first :: post))) /\
  (charIs SPACE (charAt first 0) = true ->
   PreProcessor._getSpacesPerTab (pre ++ first :: post) = leadingSpaces first /\
   PreProcessor.process (join [NL] (pre ++ first :: post))
   = Some (join [NL] (map (rewritten (leadingSpaces first))
                        (pre ++ first :: post)))).
Proof.
  intros Hnb HNL Hpre. split.
  - intros Ht. now apply process_tab_first.
  - intros Hs. split; [|now apply process_space_first].
    apply spacesPerTab_first; [exact Hpre| |exact Hs].
    rewrite Forall_forall in Hnb. apply Hnb, in_or_app. right. now left.
Qed.

Lemma X13_first_indented_line_decides_witness :
  PreProcessor.process (lit "ul" ++ NL :: TAB :: lit "li" ++ NL :: lit "    p")
  = Some (lit "ul" ++ NL :: TAB :: lit "li" ++ NL :: lit "    p") /\
  PreProcessor.process (lit "ul" ++ NL :: lit "   li" ++ NL :: TAB :: lit "p")
  = Some (lit "ul" ++ NL :: TAB :: lit "li" ++ NL :: TAB :: lit "p").
Proof.
  split.
  - refine (proj1 (X13_first_indented_line_decides [lit "ul"] [lit "    p"]
                     (TAB :: lit "li") _ _ _) eq_refl).
    + repeat constructor.
    + repeat constructor; intros H; simpl in H;
        repeat (destruct H as [H|H]; [discriminate H|]); exact H.
    + repeat constructor.
  - refine (proj2 (proj2 (X13_first_indented_line_decides [lit "ul"]
                            [TAB :: lit "p"] (lit "   li") _ _ _) eq_refl)).
    + repeat constructor.
    + repeat constructor; intros H; simpl in H;
        repeat (destruct H as [H|H]; [discriminate H|]); exact H.
    + repeat constructor.
Defined.

(** X14: blank lines do not matter.  A blank line put anywhere between the
    lines of a text changes neither what the pre-processor returns nor what
    the whole program writes. *)
Theorem X14_blank_lines_do_not_matter (a b : list str) (bl : str) :
  blank bl = true ->
  Forall (fun l => ~ In NL l) (a ++ bl :: b) ->
  PreProcessor.process (join [NL] (a ++ bl :: b))
  = PreProcessor.process (join [NL] (a ++ b)) /\
  run (join [NL] (a ++ bl :: b)) = run (join [NL] (a ++ b)).
Proof.
  intros Hbl HNL.
  assert (H : PreProcessor.process (join [NL] (a ++ bl :: b))
              = PreProcessor.process (join [NL] (a ++ b))).
  { unfold PreProcessor.process, PreProcessor.processLines, PreProcessor.new.
    assert (Hlines : PreProcessor._removeEmptyLines
                       (split (join [NL] (a ++ bl :: b)))
                     = PreProcessor._removeEmptyLines
                         (split (join [NL] (a ++ b)))).
    { rewrite (split_join (a ++ bl :: b)) by (now destruct a || exact HNL).
      rewrite (removeEmptyLines_blank a bl b Hbl).
      destruct (a ++ b) as [|l rest] eqn:E; [reflexivity|].
      rewrite split_join; [reflexivity|discriminate|].
      rewrite <- E. rewrite Forall_forall in *. intros x Hx. apply HNL.
      apply in_app_or in Hx as [Hx|Hx]; apply in_or_app;
        [now left|right; now right]. }
    now rewrite Hlines. }
  split; [exact H|]. unfold run. now rewrite H.
Qed.

Lemma X14_blank_lines_do_not_matter_witness :
  run (lit "ul" ++ NL :: lit "  " ++ NL :: TAB :: lit "li")
  = run (lit "ul" ++ NL :: TAB :: lit "li").
Proof.
  refine (proj2 (X14_blank_lines_do_not_matter [lit "ul"] [TAB :: lit "li"]
                   (lit "  ") eq_refl _)).
  repeat constructor; intros H; simpl in H;
    repeat (destruct H as [H|H]; [discriminate H|]); exact H.
Defined.

Section Documents.

Import PreProcessor.

Lemma bodyOk_head b :
  bodyOk b = true ->
  exists c r, b = c :: r /\ isWhiteSpace c = false /\ ~ In NL b.
Proof.
  unfold bodyOk. intros H. apply andb_true_iff in H as [Hh Hn].
  destruct b as [|c r]; [discriminate|].
  exists c, r. split; [reflexivity|]. split; [now apply negb_true_iff in Hh|].
  intros Hin. rewrite forallb_forall in Hn. apply Hn in Hin.
  rewrite Ascii.eqb_refl in Hin. discriminate.
Qed.

Lemma concat_repeat_one (c : ascii) n : concat (repeat [c] n) = repeat c n.
Proof. induction n as [|n IH]; simpl; [reflexivity|now rewrite IH]. Qed.

Lemma concat_repeat_many (c : ascii) w n :
  concat (repeat (repeat c w) n) = repeat c (n * w).
Proof.
  induction n as [|n IH]; simpl; [reflexivity|].
  now rewrite IH, repeat_app.
Qed.

Lemma indented_not_blank (c : ascii) n b :
  bodyOk b = true -> blank (repeat c n ++ b) = false.
Proof.
  intros Hb. destruct (bodyOk_head b Hb) as (x & r & -> & Hx & _).
  destruct (blank (repeat c n ++ x :: r)) eqn:E; [|reflexivity].
  apply blank_iff in E. rewrite forallb_app in E.
  apply andb_true_iff in E as [_ E]. simpl in E. rewrite Hx in E. discriminate.
Qed.

Lemma indented_no_NL (c : ascii) n b :
  c <> NL -> bodyOk b = true -> ~ In NL (repeat c n ++ b).
Proof.
  intros Hc Hb. destruct (bodyOk_head b Hb) as (x & r & _ & _ & Hn).
  intros H. apply in_app_or in H as [H|H]; [|now apply Hn].
  apply repeat_spec in H. congruence.
Qed.

Lemma leadingSpaces_indented n b :
  bodyOk b = true -> leadingSpaces (repeat SPACE n ++ b) = n.
Proof.
  intros Hb. destruct (bodyOk_head b Hb) as (x & r & -> & Hx & _).
  unfold leadingSpaces. rewrite takeWhile_stop.
  - apply repeat_length.
  - apply forallb_forall. intros y Hy. apply repeat_spec in Hy. now subst y.
  - unfold isSpace. destruct (Ascii.eqb x SPACE) eqn:E; [|reflexivity].
    apply Ascii.eqb_eq in E. subst x. discriminate Hx.
Qed.

Lemma rewritten_indented w n b :
  bodyOk b = true ->
  rewritten w (repeat SPACE n ++ b) = tabs (ceilDiv n w) ++ b.
Proof.
  intros Hb. unfold rewritten. rewrite (leadingSpaces_indented n b Hb).
  f_equal. rewrite <- (repeat_length SPACE n) at 1. apply skipn_exact.
Qed.

(** The number of passes of the loop does not change when both numbers are
    multiplied by the width. *)
Lemma ceilDiv_scale k d w :
  1 <= w -> 1 <= d -> ceilDiv (k * w) (d * w) = ceilDiv k d.
Proof.
  intros Hw Hd.
  assert (Hdw : 1 <= d * w) by nia.
  assert (H : forall j, (j <? ceilDiv (k * w) (d * w)) = (j <? ceilDiv k d)).
  { intros j. rewrite <- (loop_test _ _ j Hdw), <- (loop_test _ _ j Hd).
    destruct (Nat.ltb_spec (j * d) k) as [H|H].
    - apply Nat.ltb_lt. nia.
    - apply Nat.ltb_ge. nia. }
  pose proof (H (ceilDiv k d)) as H1. pose proof (H (ceilDiv (k * w) (d * w))) as H2.
  rewrite Nat.ltb_irrefl in H1, H2.
  apply Nat.ltb_ge in H1. symmetry in H2. apply Nat.ltb_ge in H2. lia.
Qed.

Lemma ceilDiv_one k : ceilDiv k 1 = k.
Proof. unfold ceilDiv. rewrite Nat.div_1_r. lia. Qed.

Lemma unitDepth_zero doc :
  unitDepth doc = 0 -> Forall (fun d => fst d = 0) doc.
Proof.
  induction doc as [|[k b] r IH]; simpl; intros H; [constructor|].
  destruct k; [|discriminate]. constructor; [reflexivity|now apply IH].
Qed.

Lemma unitDepth_first doc n :
  unitDepth doc = S n ->
  exists pre first post,
    doc = pre ++ first :: post /\
    Forall (fun d => fst d = 0) pre /\ fst first = S n.
Proof.
  induction doc as [|[k b] r IH]; simpl; intros H; [discriminate|].
  destruct k as [|k].
  - destruct (IH H) as (pre & first & post & -> & Hpre & Hf).
    exists ((0, b) :: pre), first, post. repeat split; [|exact Hf].
    constructor; [reflexivity|exact Hpre].
  - exists [], (S k, b), r. repeat split; [constructor|exact H].
Qed.

Lemma body_unindented b : bodyOk b = true -> unindented b = true.
Proof.
  intros Hb. destruct (bodyOk_head b Hb) as (x & r & -> & Hx & _).
  unfold unindented. cbn.
  destruct (Ascii.eqb x SPACE) eqn:E1.
  { apply Ascii.eqb_eq in E1. subst x. discriminate Hx. }
  destruct (Ascii.eqb x TAB) eqn:E2; [|reflexivity].
  apply Ascii.eqb_eq in E2. subst x. discriminate Hx.
Qed.

Lemma tabbed_head n b :
  bodyOk b = true -> charIs SPACE (charAt (tabs n ++ b) 0) = false.
Proof.
  intros Hb. destruct n; [|reflexivity].
  apply body_unindented in Hb. now apply unindented_heads in Hb as [Hb _].
Qed.

(** A text of lines indented with tabs is canonical. *)
Lemma tabbed_canonical (f : nat * str -> nat) doc :
  forallb (fun d => bodyOk (snd d)) doc = true ->
  canonical (map (fun d => tabs (f d) ++ snd d) doc).
Proof.
  intros Hdoc. rewrite forallb_forall in Hdoc. repeat split.
  - apply Forall_forall. intros l Hl. apply in_map_iff in Hl as [d [<- Hd]].
    apply indented_not_blank, Hdoc, Hd.
  - apply Forall_forall. intros l Hl. apply in_map_iff in Hl as [d [<- Hd]].
    apply indented_no_NL; [discriminate|apply Hdoc, Hd].
  - apply indentation_without_spaces, Forall_forall. intros l Hl.
    apply in_map_iff in Hl as [d [<- Hd]]. apply tabbed_head, Hdoc, Hd.
Qed.

Lemma process_spaced w doc :
  1 <= w -> forallb (fun d => bodyOk (snd d)) doc = true ->
  process (join [NL] (map (indentWith (repeat SPACE w)) doc))
  = Some (join [NL]
            (map (fun d => tabs (ceilDiv (fst d) (unitDepth doc)) ++ snd d) doc)).
Proof.
  intros Hw Hdoc.
  assert (Hline : forall d, indentWith (repeat SPACE w) d
                            = repeat SPACE (fst d * w) ++ snd d).
  { intros d. unfold indentWith. now rewrite concat_repeat_many. }
  pose proof Hdoc as Hall. rewrite forallb_forall in Hall.
  destruct (unitDepth doc) as [|n] eqn:Hu.
  - pose proof (unitDepth_zero doc Hu) as Hz. rewrite Forall_forall in Hz.
    assert (Hsame : map (indentWith (repeat SPACE w)) doc
                    = map (fun d => tabs (ceilDiv (fst d) 0) ++ snd d) doc).
    { apply map_ext_in. intros d Hd. rewrite Hline, (Hz d Hd). reflexivity. }
    rewrite Hsame. apply process_canonical, tabbed_canonical, Hdoc.
  - destruct (unitDepth_first doc n Hu) as (pre & first & post & -> & Hpre & Hf).
    assert (Hfirst : indentWith (repeat SPACE w) first
                     = repeat SPACE (S n * w) ++ snd first).
    { now rewrite Hline, Hf. }
    assert (Hbf : bodyOk (snd first) = true).
    { apply Hall, in_or_app. right. now left. }
    pose proof (process_space_first
                  (map (indentWith (repeat SPACE w)) pre)
                  (indentWith (repeat SPACE w) first)
                  (map (indentWith (repeat SPACE w)) post)) as P.
    change (indentWith (repeat SPACE w) first
            :: map (indentWith (repeat SPACE w)) post)
      with (map (indentWith (repeat SPACE w)) (first :: post)) in P.
    rewrite <- map_app in P.
    rewrite P; clear P.
    + rewrite Hfirst, (leadingSpaces_indented _ _ Hbf).
      do 2 f_equal. rewrite map_map. apply map_ext_in. intros d Hd.
      rewrite Hline, (rewritten_indented _ _ _ (Hall d Hd)).
      do 2 f_equal. apply ceilDiv_scale; lia.
    + apply Forall_forall. intros l Hl.
      apply in_map_iff in Hl as [d [<- Hd]]. rewrite Hline.
      apply indented_not_blank, Hall, Hd.
    + apply Forall_forall. intros l Hl.
      apply in_map_iff in Hl as [d [<- Hd]]. rewrite Hline.
      apply indented_no_NL; [discriminate|apply Hall, Hd].
    + apply Forall_forall. intros l Hl.
      apply in_map_iff in Hl as [d [<- Hd]]. rewrite Hline.
      rewrite Forall_forall in Hpre. rewrite (Hpre d Hd). cbn [Nat.mul repeat app].
      apply body_unindented, Hall, in_or_app. now left.
    + rewrite Hfirst. cbn [Nat.mul].
      destruct w as [|w]; [lia|]. reflexivity.
Qed.

End Documents.

(** X15: a text indented with [w] spaces for each level.  When its first
    indented line stands at depth [u], the pre-processor takes [u * w] for
    the width and gives a line of depth [k] the quotient [k / u] rounded up
    many tabs.  So when the first indented line stands at depth one, the
    result is the same text indented with one tab for each level, which the
    pre-processor leaves as it is, and the whole program writes the same
    for both. *)
Theorem X15_spaces_as_good_as_tabs (w : nat) (doc : list (nat * str)) :
  1 <= w ->
  forallb (fun d => bodyOk (snd d)) doc = true ->
  PreProcessor.process (join [NL] (map (indentWith (repeat SPACE w)) doc))
  = Some (join [NL]
            (map (fun d => tabs (ceilDiv (fst d) (unitDepth doc)) ++ snd d) doc)) /\
  PreProcessor.process (join [NL] (map (indentWith [TAB]) doc))
  = Some (join [NL] (map (indentWith [TAB]) doc)) /\
  (unitDepth doc <= 1 ->
   PreProcessor.process (join [NL] (map (indentWith (repeat SPACE w)) doc))
   = Some (join [NL] (map (indentWith [TAB]) doc)) /\
   run (join [NL] (map (indentWith (repeat SPACE w)) doc))
   = run (join [NL] (map (indentWith [TAB]) doc))).
Proof.
  intros Hw Hdoc.
  assert (Htab : map (indentWith [TAB]) doc
                 = map (fun d => tabs (fst d) ++ snd d) doc).
  { apply map_ext. intros d. unfold indentWith. now rewrite concat_repeat_one. }
  assert (Hfix : PreProcessor.process (join [NL] (map (indentWith [TAB]) doc))
                 = Some (join [NL] (map (indentWith [TAB]) doc))).
  { rewrite Htab. apply process_canonical, tabbed_canonical, Hdoc. }
  split; [now apply process_spaced|]. split; [exact Hfix|].
  intros Hu.
  assert (Hsp : PreProcessor.process
                  (join [NL] (map (indentWith (repeat SPACE w)) doc))
                = Some (join [NL] (map (indentWith [TAB]) doc))).
  { rewrite (process_spaced w doc Hw Hdoc), Htab. do 2 f_equal.
    destruct (unitDepth doc) as [|[|n]] eqn:E; [| |lia].
    - pose proof (unitDepth_zero doc E) as Hz. rewrite Forall_forall in Hz.
      apply map_ext_in. intros [k b] Hd. specialize (Hz _ Hd).
      simpl in Hz. subst k. reflexivity.
    - apply map_ext. intros d. now rewrite ceilDiv_one. }
  split; [exact Hsp|]. unfold run. now rewrite Hsp, Hfix.
Qed.

Lemma X15_spaces_as_good_as_tabs_witness :
  PreProcessor.process
    (lit "ul" ++ NL :: lit "   li" ++ NL :: lit "      a" ++ NL :: lit "p")
  = Some (lit "ul" ++ NL :: TAB :: lit "li" ++ NL :: TAB :: TAB :: lit "a"
          ++ NL :: lit "p") /\
  PreProcessor.process
    (lit "ul" ++ NL :: lit "      li" ++ NL :: lit "   a")
  = Some (lit "ul" ++ NL :: TAB :: lit "li" ++ NL :: TAB :: lit "a").
Proof.
  split.
  - exact (proj1 (proj2 (proj2
             (X15_spaces_as_good_as_tabs 3
                [(0, lit "ul"); (1, lit "li"); (2, lit "a"); (0, lit "p")]
                (le_S _ _ (le_S _ _ (le_n 1))) eq_refl))
             (le_n 1))).
  - exact (proj1
             (X15_spaces_as_good_as_tabs 3
                [(0, lit "ul"); (2, lit "li"); (1, lit "a")]
                (le_S _ _ (le_S _ _ (le_n 1))) eq_refl)).
Defined.

(** ** Text without delimiters *)

Section PlainText.

Import Compiler.

Variable P : ascii -> Prop.

Lemma split_Forall s : Forall P s -> Forall (Forall P) (split s).
Proof.
  induction 1 as [|c r Hc Hr IH]; simpl.
  - repeat constructor.
  - destruct (Ascii.eqb c NL); [constructor; [constructor|exact IH]|].
    destruct (split r) as [|l ls].
    + repeat constructor. exact Hc.
    + inversion IH; subst. constructor; [now constructor|assumption].
Qed.

Lemma dropWhile_Forall p (s : str) : Forall P s -> Forall P (dropWhile p s).
Proof.
  intros H. rewrite Forall_forall in *. intros x Hx.
  eapply H, dropWhile_In, Hx.
Qed.

Lemma trim_Forall s : Forall P s -> Forall P (trim s).
Proof.
  intros H. unfold trim.
  apply Forall_rev, dropWhile_Forall, Forall_rev, dropWhile_Forall, H.
Qed.

End PlainText.

Section Untagged.

Import Compiler.

Lemma colonAt_none s : forall i b,
  Forall (fun c => isTagEnd c = false) s -> colonAt s i b = None.
Proof.
  induction s as [|c r IH]; intros i b H; [reflexivity|].
  inversion H as [|? ? Hc Hr]; subst. cbn [colonAt].
  unfold isTagEnd in Hc.
  destruct (Ascii.eqb c "#"); [discriminate|].
  destruct (Ascii.eqb c "."); [discriminate|].
  destruct (Ascii.eqb c "("); [discriminate|].
  destruct (Ascii.eqb c ":"); [discriminate|].
  rewrite andb_false_r. destruct (Ascii.eqb c ")"); now apply IH.
Qed.

Lemma takeWhile_tabs l : takeWhile isTab l = tabs (length (takeWhile isTab l)).
Proof.
  unfold tabs. induction l as [|c r IH]; simpl; [reflexivity|].
  destruct (isTab c) eqn:E; [|reflexivity].
  apply Ascii.eqb_eq in E. subst c. simpl. now f_equal.
Qed.

(** Tabs are white space: trimming the text behind the leading tabs is
    trimming the line. *)
Lemma trim_behind_tabs l : trim (dropWhile isTab l) = trim l.
Proof.
  unfold trim. do 3 f_equal.
  induction l as [|c r IH]; simpl; [reflexivity|].
  destruct (isTab c) eqn:E; [|reflexivity].
  apply Ascii.eqb_eq in E. subst c. exact IH.
Qed.

Lemma lineObject_fields l :
  lineObject l = newLine (trim l) (length (takeWhile isTab l)).
Proof.
  unfold lineObject, substringFrom.
  change (fun c => Ascii.eqb c TAB) with isTab.
  now rewrite skipn_takeWhile, trim_behind_tabs.
Qed.

Lemma closeWhile_untagged stack lv compiled :
  Forall (fun l => isNoTag (tag l) = true) stack ->
  snd (closeWhile stack lv compiled) = compiled /\
  Forall (fun l => isNoTag (tag l) = true) (fst (closeWhile stack lv compiled)).
Proof.
  induction 1 as [|top below Ht Hb IH]; simpl.
  - split; [reflexivity|constructor].
  - destruct (lv <=? level top).
    + unfold _getClosingTag. rewrite Ht, app_nil_r. exact IH.
    + split; [reflexivity|now constructor].
Qed.

Lemma closeAll_untagged stack compiled :
  Forall (fun l => isNoTag (tag l) = true) stack ->
  closeAll stack compiled = compiled.
Proof.
  induction 1 as [|top below Ht Hb IH]; simpl; [reflexivity|].
  unfold _getClosingTag. now rewrite Ht, app_nil_r.
Qed.

(** Lines written as text are written one after the other: nothing is
    written when they are closed. *)
Lemma compileLoop_untagged lines : forall stack compiled,
  Forall (fun l => isNoTag (tag l) = true) lines ->
  Forall (fun l => isNoTag (tag l) = true) stack ->
  compileLoop lines stack compiled
  = compiled ++ concat (map _getOpeningTag lines).
Proof.
  induction lines as [|l rest IH]; intros stack compiled Hl Hs.
  - simpl. rewrite app_nil_r. now apply closeAll_untagged.
  - inversion Hl as [|? ? Ht Hrest]; subst. cbn [compileLoop map concat].
    destruct (closeWhile_untagged stack (level l) compiled Hs) as [Hc Hst].
    destruct (closeWhile stack (level l) compiled) as [stack' compiled'].
    simpl in Hc, Hst. subst compiled'.
    rewrite IH; [now rewrite app_assoc|exact Hrest|now constructor].
Qed.

End Untagged.

(** X16: a text without [#], [.], [(] and [:] is written line by line:
    nothing is split off, no line gets a tag, and the output holds, for
    every line of the text, its leading tabs, the line trimmed and a line
    break. *)
Theorem X16_text_without_delimiters_is_copied (content : str) :
  Forall (fun c => Compiler.isTagEnd c = false) content ->
  Compiler.new content
  = map (fun l => Compiler.mkLine (trim l) (length (takeWhile isTab l))
                    Compiler.NO_TAG JsObject.empty) (split content) /\
  compileTemplate content = concat (map tidy (split content)).
Proof.
  intros Hc.
  pose proof (split_Forall _ content Hc) as Hlines.
  assert (Hnew : Compiler.new content
                 = map (fun l => Compiler.mkLine (trim l)
                                   (length (takeWhile isTab l))
                                   Compiler.NO_TAG JsObject.empty)
                     (split content)).
  { unfold Compiler.new, Compiler._getLineObjects.
    rewrite expand_fixed.
    - unfold Compiler._parseLines. rewrite map_map.
      apply map_ext_in. intros l Hl. rewrite lineObject_fields.
      apply untagged_parseLine. unfold Compiler._parseTag.
      rewrite findFrom_none; [reflexivity|].
      rewrite Forall_forall in Hlines. apply trim_Forall, Hlines, Hl.
    - apply Forall_forall. intros L HL.
      apply in_map_iff in HL as [l [<- Hl]]. rewrite lineObject_fields.
      unfold Compiler.splitLine. cbn [Compiler.line Compiler.newLine].
      rewrite colonAt_none; [reflexivity|].
      rewrite Forall_forall in Hlines. apply trim_Forall, Hlines, Hl. }
  split; [exact Hnew|].
  unfold compileTemplate, Compiler.compile. rewrite Hnew.
  rewrite compileLoop_untagged.
  - cbn [app]. rewrite map_map. f_equal. apply map_ext. intros l.
    unfold Compiler._getOpeningTag, tidy. cbn.
    now rewrite <- takeWhile_tabs.
  - apply Forall_forall. intros L HL.
    apply in_map_iff in HL as [l [<- _]]. reflexivity.
  - constructor.
Qed.

Lemma X16_text_without_delimiters_is_copied_witness :
  compileTemplate (lit "Dear reader," ++ NL :: TAB :: lit "  welcome  "
                   ++ NL :: NL :: lit "bye")
  = lit "Dear reader," ++ NL :: TAB :: lit "welcome" ++ NL :: NL
    :: lit "bye" ++ [NL].
Proof.
  refine (proj2 (X16_text_without_delimiters_is_copied
                   (lit "Dear reader," ++ NL :: TAB :: lit "  welcome  "
                    ++ NL :: NL :: lit "bye") _)).
  repeat constructor.
Defined.

(** ** A line written in full *)

Section WrittenLine.

Import Compiler JsObject.

Lemma put_fresh o k v : ~ In k (map fst o) -> put o k v = o ++ [(k, v)].
Proof.
  induction o as [|[k' v'] r IH]; simpl; intros H; [reflexivity|].
  rewrite streq_neq by tauto. f_equal. apply IH. tauto.
Qed.

(** Assignments to new, different names are appended in their order. *)
Lemma fold_set_fresh es : forall o,
  NoDup (map fst o ++ map fst es) ->
  Forall (fun k => k <> lit "__proto__") (map fst es) ->
  fold_left (fun o e => set o (fst e) (snd e)) es o = o ++ es.
Proof.
  induction es as [|[k v] r IH]; intros o Hnd Hp; simpl.
  - now rewrite app_nil_r.
  - inversion Hp as [|? ? Hk Hr]; subst.
    assert (Hfresh : ~ In k (map fst o)).
    { intros Hin. simpl in Hnd. apply NoDup_remove_2 in Hnd.
      apply Hnd, in_or_app. now left. }
    unfold set at 2. cbn [fst snd]. rewrite (streq_neq _ _ Hk).
    rewrite (put_fresh o k v Hfresh), IH.
    + now rewrite <- app_assoc.
    + rewrite map_app. cbn [map fst]. rewrite <- app_assoc. exact Hnd.
    + exact Hr.
Qed.

(** Without array indices among the names, the enumeration follows the
    order of insertion. *)
Lemma entries_named o :
  Forall (fun k => arrayIndex k = None) (map fst o) -> entries o = o.
Proof.
  intros H.
  assert (Hi : indexEntries o = []).
  { induction o as [|[k v] r IH]; [reflexivity|].
    inversion H as [|? ? Hk Hr]; subst. cbn [indexEntries].
    rewrite Hk. now apply IH. }
  assert (Hn : namedEntries o = o).
  { unfold namedEntries. induction o as [|[k v] r IH]; [reflexivity|].
    inversion H as [|? ? Hk Hr]; subst. cbn [filter fst].
    rewrite Hk. f_equal. apply IH; [exact Hr|].
    cbn [indexEntries] in Hi. now rewrite Hk in Hi. }
  unfold entries. now rewrite Hi, Hn.
Qed.

Lemma classesFrom_dot l r i acc :
  classesFrom l ("."%char :: r) i false acc
  = match findFrom isClassEnd r (i + 1) with
    | Some j => classesFrom l r (S i) false (acc ++ [substring l (i + 1) j])
    | None => classesFrom l r (S i) false acc
    end.
Proof. reflexivity. Qed.

(** The classes written in a row in front of a character that ends a
    class are all collected. *)
Lemma classesFrom_dotted_then (cs : list str) : forall (done : str) acc x X,
  Forall (fun c : str => Forall (fun y => isClassChar y = true) c) cs ->
  isClassEnd x = true ->
  classesFrom (done ++ dotted cs ++ x :: X) (dotted cs ++ x :: X)
    (length done) false acc
  = classesFrom (done ++ dotted cs ++ x :: X) (x :: X)
      (length done + length (dotted cs)) false (acc ++ cs).
Proof.
  induction cs as [|c1 cs' IH]; intros done acc x X HF Hx.
  - cbn [dotted map concat app length]. now rewrite Nat.add_0_r, app_nil_r.
  - inversion HF as [|? ? Hc1 Hcs']; subst.
    assert (Hs : dotted (c1 :: cs') ++ x :: X
                 = "."%char :: c1 ++ dotted cs' ++ x :: X).
    { unfold dotted. cbn [map concat]. now rewrite <- !app_assoc. }
    assert (Hl : done ++ dotted (c1 :: cs') ++ x :: X
                 = (done ++ ["."%char]) ++ c1 ++ dotted cs' ++ x :: X).
    { rewrite Hs. now rewrite <- !app_assoc. }
    assert (Hl' : done ++ dotted (c1 :: cs') ++ x :: X
                  = (done ++ "."%char :: c1) ++ dotted cs' ++ x :: X).
    { rewrite Hs. now rewrite <- !app_assoc. }
    assert (Hnext : exists y Y, dotted cs' ++ x :: X = y :: Y /\
                                isClassEnd y = true).
    { destruct cs' as [|c2 cs''].
      - exists x, X. now split.
      - unfold dotted. cbn [map concat app]. eexists _, _.
        split; reflexivity. }
    destruct Hnext as (y & Y & EY & Hy).
    assert (Hlen : length (dotted (c1 :: cs'))
                   = S (length c1 + length (dotted cs'))).
    { unfold dotted. cbn [map concat]. cbn [app length].
      now rewrite length_app. }
    rewrite Hlen.
    remember (done ++ dotted (c1 :: cs') ++ x :: X) as l eqn:El.
    rewrite Hs, classesFrom_dot, EY.
    rewrite (findFrom_found isClassEnd c1 y Y _ (classChar_not_end c1 Hc1) Hy).
    rewrite (classesFrom_skip l c1 (y :: Y) _ _ _ Hc1).
    assert (Hsub : substring l (length done + 1) (length done + 1 + length c1)
                   = c1).
    { rewrite Hl. apply substring_middle; rewrite length_app; simpl; lia. }
    rewrite Hsub, <- EY.
    pose proof (IH (done ++ "."%char :: c1) (acc ++ [c1]) x X Hcs' Hx) as IH'.
    rewrite <- Hl' in IH'.
    replace (S (length done) + length c1)
      with (length (done ++ "."%char :: c1))
      by (rewrite length_app; simpl; lia).
    transitivity (classesFrom l (x :: X)
                    (length (done ++ "."%char :: c1) + length (dotted cs'))
                    false ((acc ++ [c1]) ++ cs')); [exact IH'|].
    rewrite <- app_assoc. cbn [app]. f_equal.
    rewrite length_app. simpl. lia.
Qed.

(** A group of attributes holds no classes. *)
Lemma classesFrom_group l (inner post : str) : forall i b acc,
  Forall (fun c => Ascii.eqb c ")" = false) inner ->
  classesFrom l ("("%char :: inner ++ ")"%char :: post) i b acc
  = classesFrom l post (i + length inner + 2) false acc.
Proof.
  intros i b acc Hinner.
  assert (Hin : forall j,
            classesFrom l (inner ++ ")"%char :: post) j true acc
            = classesFrom l post (j + length inner + 1) false acc).
  { induction Hinner as [|c r Hc Hr IH]; intros j.
    - cbn [app classesFrom length].
      change (Ascii.eqb ")" "(") with false.
      change (Ascii.eqb ")" ")") with true. cbn iota. f_equal. lia.
    - cbn [app classesFrom length negb andb]. rewrite Hc.
      destruct (Ascii.eqb c "("); rewrite IH; f_equal; lia. }
  cbn [classesFrom]. change (Ascii.eqb "(" "(") with true. cbn iota.
  rewrite Hin. f_equal. lia.
Qed.

Lemma classChar_kinds c :
  isClassChar c = true ->
  Ascii.eqb c "#" = false /\ Ascii.eqb c "." = false /\
  Ascii.eqb c "(" = false /\ Ascii.eqb c ")" = false /\
  Ascii.eqb c ":" = false.
Proof.
  unfold isClassChar, isClassEnd, isParen.
  destruct (Ascii.eqb c "#"), (Ascii.eqb c "."), (Ascii.eqb c "("),
    (Ascii.eqb c ")"), (Ascii.eqb c ":"); simpl; intros H;
    try discriminate H; repeat split.
Qed.

Lemma dotted_no_open (cs : list str) :
  Forall (fun c : str => Forall (fun y => isClassChar y = true) c) cs ->
  Forall (fun c => Ascii.eqb c "(" = false) (dotted cs).
Proof.
  unfold dotted. induction 1 as [|c r Hc Hr IH]; cbn [map concat]; [constructor|].
  cbn [app]. constructor; [reflexivity|]. apply Forall_app. split; [|exact IH].
  eapply Forall_impl; [|exact Hc]. intros y Hy.
  now apply classChar_kinds in Hy as (_ & _ & H & _).
Qed.

End WrittenLine.

Section WrittenParts.

Import Compiler.

Lemma classesFrom_hash l r i b acc :
  classesFrom l ("#"%char :: r) i b acc = classesFrom l r (S i) b acc.
Proof. now destruct b. Qed.

Lemma join_cons_truthy (cs : list str) :
  join (lit " ") cs <> [] -> truthy (Some (join (lit " ") cs)) = true.
Proof. destruct (join (lit " ") cs); [congruence|reflexivity]. Qed.

End WrittenParts.

(** X17: a line written in full -- a tag, [#] and an id, classes each
    behind a dot, and a group of named attributes between parentheses --
    becomes one element.  Its attributes are the id, the classes joined by
    spaces, and the named attributes as the attribute loop reads them, in
    this order; the opening text lists them in this order behind the tag,
    and the closing text names the tag. *)
Theorem X17_written_line_becomes_element (tag id : str) (cs : list str)
  (k1 v1 : str) (later : list (nat * ascii * str * str)) (lv : nat) :
  let inner := writtenAttributes k1 v1 later in
  let named := (k1, v1) :: map laterEntry later in
  let all := (lit "id", id) :: (lit "class", join (lit " ") cs) :: named in
  let text :=
    tag ++ "#"%char :: id ++ dotted cs ++ "("%char :: inner ++ [")"%char] in
  Forall (fun c => isClassChar c = true) tag ->
  JsNumber.stringIsOne tag = false ->
  id <> [] ->
  Forall (fun c => isClassChar c = true) id ->
  join (lit " ") cs <> [] ->
  Forall (fun c : str => Forall (fun y => isClassChar y = true) c) cs ->
  nameOk k1 = true -> valueOk v1 = true -> forallb laterOk later = true ->
  Forall (fun c => Ascii.eqb c ")" = false) inner ->
  trim inner = inner ->
  NoDup (map fst all) ->
  Forall (fun k => JsObject.arrayIndex k = None /\ k <> lit "__proto__")
    (map fst named) ->
  Compiler.parseLine (Compiler.newLine text lv)
  = Compiler.mkLine text lv (Compiler.Tag tag) all /\
  Compiler._getOpeningTag (Compiler.parseLine (Compiler.newLine text lv))
  = tabs lv ++ "<"%char :: tag ++ concat (map Compiler.attribute all)
    ++ [">"%char; NL] /\
  Compiler._getClosingTag (Compiler.parseLine (Compiler.newLine text lv))
  = tabs lv ++ "<"%char :: "/"%char :: tag ++ [">"%char; NL].
Proof.
  intros inner named all text Htag Hone Hid Hidc Hjoin Hcs Hk1 Hv1 Hlater
    Hclose Htrim Hnd Hkeys.
  destruct cs as [|c1 cs']; [now elim Hjoin|].
  assert (Hdot : exists rest, dotted (c1 :: cs') ++ "("%char :: inner ++ [")"%char]
                              = "."%char :: rest).
  { unfold dotted. cbn [map concat app]. eexists. reflexivity. }
  destruct Hdot as [rest Hrest].
  (* the tag *)
  assert (HpTag : Compiler._parseTag text = Compiler.Tag tag).
  { unfold Compiler._parseTag, text.
    rewrite (findFrom_found Compiler.isTagEnd tag "#"%char _ 0).
    - f_equal. apply (substring_middle [] tag _); reflexivity.
    - eapply Forall_impl; [|exact Htag]. intros c Hc.
      apply classChar_kinds in Hc as (H1 & H2 & H3 & _ & H5).
      unfold Compiler.isTagEnd. now rewrite H1, H2, H3, H5.
    - reflexivity. }
  (* the id *)
  assert (HpId : Compiler._parseId text = Some id).
  { unfold Compiler._parseId, text.
    rewrite (parseIdFrom_skip _ tag _ 0).
    2:{ eapply Forall_impl; [|exact Htag]. intros c Hc.
        now apply classChar_kinds in Hc as (H1 & _). }
    cbn [Compiler.parseIdFrom].
    change (Ascii.eqb "#" "#") with true. cbn iota.
    rewrite Hrest.
    rewrite (findFrom_found Compiler.isIdEnd id "."%char rest).
    - f_equal.
      replace (tag ++ "#"%char :: id ++ "."%char :: rest)
        with ((tag ++ ["#"%char]) ++ id ++ "."%char :: rest)
        by now rewrite <- app_assoc.
      apply substring_middle; rewrite length_app; simpl; lia.
    - eapply Forall_impl; [|exact Hidc]. intros c Hc.
      apply classChar_kinds in Hc as (_ & H2 & H3 & _ & H5).
      unfold Compiler.isIdEnd. now rewrite H2, H3, H5.
    - reflexivity. }
  (* the classes *)
  assert (Htext : text = (tag ++ "#"%char :: id) ++ dotted (c1 :: cs')
                         ++ "("%char :: inner ++ [")"%char]).
  { unfold text. now rewrite <- app_assoc. }
  assert (Hfrom : Compiler.classesFrom text text 0 false [] = c1 :: cs').
  { transitivity (Compiler.classesFrom text
                    (dotted (c1 :: cs') ++ "("%char :: inner ++ [")"%char])
                    (length (tag ++ "#"%char :: id)) false []).
    - unfold text at 2.
      rewrite (classesFrom_skip text tag _ 0 false [] Htag).
      rewrite classesFrom_hash.
      rewrite (classesFrom_skip text id _ _ false [] Hidc).
      f_equal. rewrite length_app. simpl. lia.
    - rewrite Htext.
      rewrite (classesFrom_dotted_then (c1 :: cs') (tag ++ "#"%char :: id) []
                 "("%char (inner ++ [")"%char]) Hcs eq_refl).
      rewrite (classesFrom_group _ inner [] _ false _ Hclose).
      reflexivity. }
  assert (HpCl : Compiler._parseClasses text
                 = Some (join (lit " ") (c1 :: cs'))).
  { unfold Compiler._parseClasses. now rewrite Hfrom. }
  (* the named attributes *)
  assert (Hnamed : NoDup (map fst named)).
  { inversion Hnd as [|? ? _ Hnd']; subst.
    inversion Hnd' as [|? ? _ Hnd'']; subst. exact Hnd''. }
  assert (Hproto : Forall (fun k => k <> lit "__proto__") (map fst named)).
  { eapply Forall_impl; [|exact Hkeys]. now intros k [_ H]. }
  assert (Hindex : Forall (fun k => JsObject.arrayIndex k = None)
                     (map fst named)).
  { eapply Forall_impl; [|exact Hkeys]. now intros k [H _]. }
  assert (HpPr : Compiler._parseProps text = named).
  { unfold Compiler._parseProps.
    assert (Hpre : Forall (fun c => Ascii.eqb c "(" = false)
                     (tag ++ "#"%char :: id ++ dotted (c1 :: cs'))).
    { apply Forall_app. split.
      { eapply Forall_impl; [|exact Htag]. intros c Hc.
        now apply classChar_kinds in Hc as (_ & _ & H3 & _). }
      constructor; [reflexivity|]. apply Forall_app. split.
      { eapply Forall_impl; [|exact Hidc]. intros c Hc.
        now apply classChar_kinds in Hc as (_ & _ & H3 & _). }
      now apply dotted_no_open. }
    assert (Hshape : text = (tag ++ "#"%char :: id ++ dotted (c1 :: cs'))
                            ++ "("%char :: inner ++ ")"%char :: []).
    { unfold text. rewrite <- !app_assoc. cbn [app].
      now rewrite <- !app_assoc. }
    revert Hpre Hshape.
    generalize (tag ++ "#"%char :: id ++ dotted (c1 :: cs')) as pre.
    intros pre Hpre Hshape.
    rewrite Hshape, (parensFrom_group pre inner [] Hpre Hclose).
    replace (pre ++ "("%char :: inner ++ [")"%char])
      with ((pre ++ ["("%char]) ++ inner ++ [")"%char])
      by now rewrite <- app_assoc.
    rewrite substring_middle; [| rewrite length_app; simpl; lia
                               | rewrite length_app; simpl; lia].
    rewrite Htrim.
    transitivity (fold_left (fun o e => JsObject.set o (fst e) (snd e))
                    named JsObject.empty).
    - apply (propsLoop_written later [] k1 v1 JsObject.empty Hk1 Hv1 Hlater).
    - apply (fold_set_fresh named JsObject.empty); assumption. }
  assert (Hparse : Compiler.parseLine (Compiler.newLine text lv)
                   = Compiler.mkLine text lv (Compiler.Tag tag) all).
  { unfold Compiler.parseLine, Compiler.newLine.
    cbn [Compiler.line Compiler.level Compiler.props].
    rewrite HpTag, HpId, HpCl, HpPr. f_equal.
    rewrite (entries_named named Hindex).
    unfold Compiler.setIf. rewrite (join_cons_truthy _ Hjoin).
    destruct id as [|x id']; [now elim Hid|]. cbn [Compiler.truthy].
    change (JsObject.set (JsObject.set JsObject.empty (lit "id") (x :: id'))
              (lit "class") (join (lit " ") (c1 :: cs')))
      with [(lit "id", x :: id'); (lit "class", join (lit " ") (c1 :: cs'))].
    apply (fold_set_fresh named
             [(lit "id", x :: id'); (lit "class", join (lit " ") (c1 :: cs'))]);
      [exact Hnd|exact Hproto]. }
  assert (Hall : JsObject.entries all = all).
  { apply entries_named. constructor; [reflexivity|].
    constructor; [reflexivity|exact Hindex]. }
  split; [exact Hparse|]. rewrite Hparse. split.
  - rewrite opening_text by (unfold tagged; cbn; now rewrite Hone).
    unfold tagBody. cbn [Compiler.level Compiler.tag Compiler.props
                          Compiler.tagText].
    rewrite Hall. now rewrite <- app_assoc.
  - rewrite closing_text by (unfold tagged; cbn; now rewrite Hone).
    reflexivity.
Qed.

Lemma X17_written_line_becomes_element_witness :
  Compiler._getOpeningTag
    (Compiler.parseLine
       (Compiler.newLine (lit "a#top.big.red(href:x.html _title:t)") 1))
  = TAB :: lit "<a id=" ++ quoted (lit "top")
    ++ lit " class=" ++ quoted (lit "big red")
    ++ lit " href=" ++ quoted (lit "x.html")
    ++ lit " title=" ++ quoted (lit "t") ++ lit ">" ++ [NL].
Proof.
  refine (proj1 (proj2
    (X17_written_line_becomes_element (lit "a") (lit "top")
       [lit "big"; lit "red"] (lit "href") (lit "x.html")
       [(0, "_"%char, lit "title", lit "t")] 1
       _ eq_refl _ _ _ _ eq_refl eq_refl eq_refl _ eq_refl _ _))).
  - repeat constructor.
  - discriminate.
  - repeat constructor.
  - discriminate.
  - repeat constructor.
  - repeat constructor.
  - repeat constructor; simpl; intuition discriminate.
  - repeat constructor; discriminate.
Defined.

(** ** Inline statements in general *)

Section Inline.

Import Compiler.

(** The scan does not look behind the colon it stops at. *)
Lemma colonAt_app s t : forall i b j,
  colonAt s i b = Some j -> colonAt (s ++ t) i b = Some j.
Proof.
  induction s as [|c r IH]; intros i b j H; [discriminate|].
  cbn [app colonAt] in *.
  destruct (Ascii.eqb c "("); [now apply IH|].
  destruct (Ascii.eqb c ")"); [now apply IH|].
  destruct (negb b && Ascii.eqb c ":"); [exact H|now apply IH].
Qed.

Lemma splitLine_inline (p c : str) lv :
  colonAt (p ++ [":"%char]) 0 false = Some (length p) ->
  splitLine (newLine (p ++ ":"%char :: c) lv)
  = if length (trim c) =? 0 then None
    else Some (newLine (p ++ [":"%char]) lv, newLine (trim c) (lv + 1)).
Proof.
  intros Hcolon. unfold splitLine. cbn [line newLine level tag props].
  replace (p ++ ":"%char :: c) with ((p ++ [":"%char]) ++ c)
    by now rewrite <- app_assoc.
  rewrite (colonAt_app _ c _ _ _ Hcolon).
  unfold substringFrom.
  replace (length p + 1) with (length (p ++ [":"%char]))
    by (rewrite length_app; reflexivity).
  rewrite skipn_exact.
  assert (Hsub : substring ((p ++ [":"%char]) ++ c) 0
                   (length (p ++ [":"%char])) = p ++ [":"%char]).
  { apply (substring_middle [] (p ++ [":"%char]) c); reflexivity. }
  rewrite Hsub. reflexivity.
Qed.

End Inline.

(** X18: text behind a colon is a short way of writing the next line one
    level deeper.  When the colon behind [p] is the first one outside
    parentheses, the line [p:c] at level [lv] is expanded like the line
    [p:] at level [lv] followed by the trimmed text [c] as a line at level
    [lv + 1], which is expanded in its turn; when [c] is blank, the line is
    kept as it is, with [c]. *)
Theorem X18_inline_text_is_the_next_line (p c : str) (lv : nat)
  (rest : list Compiler.Line) :
  Compiler.colonAt (p ++ [":"%char]) 0 false = Some (length p) ->
  (trim c <> [] ->
   Compiler._expandSingleLineStatements
     (Compiler.newLine (p ++ ":"%char :: c) lv :: rest)
   = Compiler.newLine (p ++ [":"%char]) lv
     :: Compiler._expandSingleLineStatements
          (Compiler.newLine (trim c) (lv + 1) :: rest) /\
   Compiler._expandSingleLineStatements
     (Compiler.newLine (p ++ ":"%char :: c) lv :: rest)
   = Compiler._expandSingleLineStatements
       (Compiler.newLine (p ++ [":"%char]) lv
        :: Compiler.newLine (trim c) (lv + 1) :: rest)) /\
  (trim c = [] ->
   Compiler._expandSingleLineStatements
     (Compiler.newLine (p ++ ":"%char :: c) lv :: rest)
   = Compiler.newLine (p ++ ":"%char :: c) lv
     :: Compiler._expandSingleLineStatements rest).
Proof.
  intros Hcolon.
  pose proof (splitLine_inline p c lv Hcolon) as Hsplit.
  pose proof (splitLine_inline p [] lv Hcolon) as Hparent.
  cbn in Hparent. split.
  - intros Hc.
    assert (Hlen : (length (trim c) =? 0) = false).
    { apply Nat.eqb_neq. intros H. apply length_zero_iff_nil in H. congruence. }
    rewrite Hlen in Hsplit.
    rewrite (expand_split _ _ _ rest Hsplit).
    split; [reflexivity|]. now rewrite (expand_keep _ _ Hparent).
  - intros Hc. rewrite Hc in Hsplit. cbn in Hsplit.
    apply (expand_keep _ rest Hsplit).
Qed.

Lemma X18_inline_text_is_the_next_line_witness :
  Compiler._expandSingleLineStatements
    [Compiler.newLine (lit "ul(a:b):  li: x ") 0; Compiler.newLine (lit "p") 0]
  = Compiler._expandSingleLineStatements
      [Compiler.newLine (lit "ul(a:b):") 0; Compiler.newLine (lit "li: x") 1;
       Compiler.newLine (lit "p") 0].
Proof.
  refine (proj2 (proj1 (X18_inline_text_is_the_next_line (lit "ul(a:b)")
                          (lit "  li: x ") 0 [Compiler.newLine (lit "p") 0]
                          eq_refl) _)).
  discriminate.
Defined.
